(** * Scene merging and highlight selection of the shorts generator

    A shallow embedding of [scene_detector.py] (class [Scene],
    [SceneDetector.merge_short_scenes], [SceneDetector.detect_scenes]), of
    [highlight_selector.py] (class [HighlightSelector]), of the transcript
    functions of [transcriber.py] and of [generate_captions] of [main.py],
    together with the properties of the natural-language specification that
    concern them and further properties read off the code.

    Conventions of the embedding.
    - Python [float] times, durations and scores are exact rationals [Q]
      (no rounding, no NaN);
      the comparisons [<], [<=], [>=] of the source are the boolean tests
      [Qlt_bool] and [Qle_bool]; [min(a, b)] and [max(a, b)] are
      [py_min] and [py_max], which keep Python's choice of the first
      argument on ties.
    - A Python [str] is a [string] whose characters are the code points
      0..255.
    - An [IndexError] of the source is the [None] of an [option]. *)

From Stdlib Require Import QArith Qminmax Lqa.
From Stdlib Require Import ZArith Lia Bool.
From Stdlib Require Import Ascii String.
From Stdlib Require Import List.
Import ListNotations.

Open Scope Q_scope.

(** ** Python built-ins on numbers *)

(** [a < b] on floats. *)
Definition Qlt_bool (a b : Q) : bool := negb (Qle_bool b a).

(** [min(a, b)]: the second argument wins only when strictly smaller. *)
Definition py_min (a b : Q) : Q := if Qlt_bool b a then b else a.

(** [max(a, b)]: the second argument wins only when strictly greater. *)
Definition py_max (a b : Q) : Q := if Qlt_bool a b then b else a.

(** [sum(xs)], accumulating from the left as Python does. *)
Definition py_sum (xs : list Q) : Q := fold_left Qplus xs 0.

(** [len(xs)] as a number. *)
Definition len {A : Type} (xs : list A) : Q := inject_Z (Z.of_nat (length xs)).

(** [xs[a:b]] for non-negative bounds. *)
Definition slice {A : Type} (xs : list A) (a b : nat) : list A :=
  firstn (b - a) (skipn a xs).

(** [xs[-1]]. *)
Fixpoint last_error {A : Type} (xs : list A) : option A :=
  match xs with
  | [] => None
  | [x] => Some x
  | _ :: xs' => last_error xs'
  end.

(** [xs.pop()] on a non-empty list: the remaining list and the popped
    element. *)
Fixpoint pop {A : Type} (xs : list A) : option (list A * A) :=
  match xs with
  | [] => None
  | x :: xs' =>
      match pop xs' with
      | None => Some ([], x)
      | Some (init, l) => Some (x :: init, l)
      end
  end.

(** ** scene_detector.py *)

Module SceneDetector.

(** [class Scene]: the three constructor arguments are stored; [duration],
    [speech_duration] and [speech_density] are computed from them by
    [__init__] and never reassigned. *)
Record Scene : Type := mkScene {
  start_time : Q;
  end_time : Q;
  speech_segments : list (Q * Q)
}.

Definition duration (s : Scene) : Q := end_time s - start_time s.

Definition speech_duration (s : Scene) : Q :=
  py_sum (map (fun seg => snd seg - fst seg) (speech_segments s)).

Definition speech_density (s : Scene) : Q :=
  if Qlt_bool 0 (duration s) then speech_duration s / duration s else 0.

(** The [for next_scene in scenes[1:]] loop of [merge_short_scenes]; the
    state is the pair of [merged] and [current]. *)
Fixpoint merge_loop (min_duration : Q) (merged : list Scene) (current : Scene)
    (rest : list Scene) : list Scene * Scene :=
  match rest with
  | [] => (merged, current)
  | next_scene :: rest' =>
      if Qlt_bool (duration current) min_duration then
        merge_loop min_duration merged
          (mkScene (start_time current) (end_time next_scene)
             (speech_segments current ++ speech_segments next_scene))
          rest'
      else
        merge_loop min_duration (merged ++ [current]) next_scene rest'
  end.

(** The tail of [merge_short_scenes], after the loop ("Don't forget the
    last scene"). *)
Definition merge_tail (min_duration : Q) (merged : list Scene)
    (current : Scene) : list Scene :=
  if Qle_bool min_duration (duration current) then
    merged ++ [current]
  else
    match pop merged with
    | Some (init, prev) =>
        init ++ [mkScene (start_time prev) (end_time current)
                   (speech_segments prev ++ speech_segments current)]
    | None => merged ++ [current]
    end.

Definition merge_short_scenes (scenes : list Scene) (min_duration : Q)
    : list Scene :=
  match scenes with
  | [] => []
  | first :: rest =>
      let '(merged, current) := merge_loop min_duration [] first rest in
      merge_tail min_duration merged current
  end.

(** The errors the specification names for the merger.  The source has no
    [raise] and no operation that can fail in [merge_short_scenes]: a call
    always returns its list. *)
Inductive error : Type := InvalidInputError.

Definition merge_short_scenes_call (scenes : list Scene) (min_duration : Q)
    : error + list Scene :=
  inr (merge_short_scenes scenes min_duration).

(** A consistent scene sequence: no negative duration, and every scene ends
    no later than its successor starts (ordered and non-overlapping). *)
Fixpoint consistent (scenes : list Scene) : bool :=
  match scenes with
  | [] => true
  | s :: rest =>
      Qle_bool (start_time s) (end_time s) &&
      match rest with
      | [] => true
      | n :: _ => Qle_bool (end_time s) (start_time n)
      end &&
      consistent rest
  end.

(** The vocabulary of the coverage property: a scene that is not shorter
    than [min_duration], where a sequence starts and where it ends. *)
Definition long_enough (min_duration : Q) (s : Scene) : Prop :=
  min_duration <= duration s.

Definition first_start (l : list Scene) : option Q :=
  option_map start_time (hd_error l).

Definition last_end (l : list Scene) : option Q :=
  option_map end_time (last_error l).

End SceneDetector.

(** ** Python string operations used by the selector *)

Module PyStr.

Definition code (c : ascii) : nat := nat_of_ascii c.

(** [str.isspace] on the code points 0..255: the separators of
    [str.split()] and the characters removed by [str.strip()]. *)
Definition is_space (c : ascii) : bool :=
  let n := code c in
  ((9 <=? n) && (n <=? 13) || (28 <=? n) && (n <=? 32) ||
   (n =? 133) || (n =? 160))%nat.

(** The regular expression class [\d] on the code points 0..255. *)
Definition is_digit (c : ascii) : bool :=
  let n := code c in ((48 <=? n) && (n <=? 57))%nat.

(** The regular expression class [[.!?]]. *)
Definition is_sentence_end (c : ascii) : bool :=
  let n := code c in ((n =? 46) || (n =? 33) || (n =? 63))%nat.

(** [str.lower] on one code point below 256. *)
Definition lower_char (c : ascii) : ascii :=
  let n := code c in
  if ((65 <=? n) && (n <=? 90) ||
      (192 <=? n) && (n <=? 222) && negb (n =? 215))%nat
  then ascii_of_nat (n + 32) else c.

Fixpoint lower (s : string) : string :=
  match s with
  | EmptyString => EmptyString
  | String c s' => String (lower_char c) (lower s')
  end.

Definition is_empty (s : string) : bool :=
  match s with EmptyString => true | _ => false end.

(** [s.split()]: the maximal runs of non-space characters; [cur] is the
    run being read. *)
Fixpoint split_from (cur : string) (s : string) : list string :=
  match s with
  | EmptyString => if is_empty cur then [] else [cur]
  | String c s' =>
      if is_space c then
        if is_empty cur then split_from EmptyString s'
        else cur :: split_from EmptyString s'
      else split_from (cur ++ String c EmptyString) s'
  end.

Definition split (s : string) : list string := split_from EmptyString s.

(** [re.split(r'[.!?]+', s)]: the pieces between maximal runs of sentence
    enders, empty pieces included; [in_run] tells that the previous
    character was a sentence ender. *)
Fixpoint re_split_from (cur : string) (in_run : bool) (s : string)
    : list string :=
  match s with
  | EmptyString => [cur]
  | String c s' =>
      if is_sentence_end c then
        if in_run then re_split_from EmptyString true s'
        else cur :: re_split_from EmptyString true s'
      else re_split_from (cur ++ String c EmptyString) false s'
  end.

Definition re_split_sentences (s : string) : list string :=
  re_split_from EmptyString false s.

(** [sub in s]. *)
Fixpoint contains (sub s : string) : bool :=
  prefix sub s ||
  match s with
  | EmptyString => false
  | String _ s' => contains sub s'
  end.

(** [c in s] for a single character. *)
Fixpoint has_char (c : ascii) (s : string) : bool :=
  match s with
  | EmptyString => false
  | String d s' => Ascii.eqb c d || has_char c s'
  end.

(** [bool(re.search(r'\d+', s))]. *)
Fixpoint has_digit (s : string) : bool :=
  match s with
  | EmptyString => false
  | String c s' => is_digit c || has_digit s'
  end.

Fixpoint take_digits (s : string) : string :=
  match s with
  | EmptyString => EmptyString
  | String c s' => if is_digit c then String c (take_digits s') else EmptyString
  end.

(** [re.search(r'\d+', s)]: the leftmost maximal run of digits, the
    [group()] of the match. *)
Fixpoint re_search_digits (s : string) : option string :=
  match s with
  | EmptyString => None
  | String c s' => if is_digit c then Some (take_digits s) else re_search_digits s'
  end.

(** [float(ds)] for a string of decimal digits. *)
Definition float_of_digits (ds : string) : Q :=
  inject_Z
    (fold_left (fun acc c => (10 * acc + Z.of_nat (code c - 48))%Z)
       (list_ascii_of_string ds) 0%Z).

Fixpoint lstrip_list (cs : list ascii) : list ascii :=
  match cs with
  | [] => []
  | c :: cs' => if is_space c then lstrip_list cs' else cs
  end.

(** [s.strip()]. *)
Definition strip (s : string) : string :=
  string_of_list_ascii
    (rev (lstrip_list (rev (lstrip_list (list_ascii_of_string s))))).

End PyStr.

(** ** highlight_selector.py *)

Module HighlightSelector.

Import SceneDetector.

(** [class Highlight]; [duration] is computed by [__init__]. *)
Record Highlight : Type := mkHighlight {
  hl_start_time : Q;
  hl_end_time : Q;
  hl_score : Q;
  hl_text : string;
  hl_scene : Scene
}.

Definition hl_duration (h : Highlight) : Q := hl_end_time h - hl_start_time h.

(** The constructor arguments of [HighlightSelector]. *)
Record Selector : Type := mkSelector {
  cohere_api_key : option string;
  min_duration : Q;
  max_duration : Q
}.

(** [self.viral_keywords], the same list for every selector. *)
Definition viral_keywords : list string :=
  [ "amazing"; "awesome"; "incredible"; "shocking";
    "mind-blowing"; "insane"; "unbelievable"; "viral";
    "trending"; "epic"; "revolutionary"; "game-changing";
    "breakthrough"; "genius"; "masterpiece"; "perfect";
    "stunning"; "extraordinary"; "phenomenal"; "legendary";
    "important"; "key point"; "essential"; "crucial";
    "highlight"; "main idea"; "summary"; "conclusion";
    "therefore"; "result"; "consequently"; "because";
    "explains"; "demonstrates"; "shows"; "proves" ]%string.

(** [sum(1 for kw in kws if kw.lower() in text)]. *)
Definition count_keywords (kws : list string) (text : string) : nat :=
  length (filter (fun kw => PyStr.contains (PyStr.lower kw) text) kws).

Definition of_nat (n : nat) : Q := inject_Z (Z.of_nat n).

(** The four keyword tiers of [_score_text_with_keywords], counted on the
    lowered text. *)
Definition high_impact_words (text : string) : nat :=
  count_keywords (slice viral_keywords 0 30) text.
Definition content_indicators (text : string) : nat :=
  count_keywords (slice viral_keywords 30 40) text.
Definition emotional_triggers (text : string) : nat :=
  count_keywords (slice viral_keywords 40 52) text.
Definition call_to_action (text : string) : nat :=
  count_keywords (skipn 52 viral_keywords) text.

Definition keyword_score (text : string) : Q :=
  of_nat (high_impact_words text) * (15 # 100) +
  of_nat (content_indicators text) * (25 # 100) +
  of_nat (emotional_triggers text) * (3 # 10) +
  of_nat (call_to_action text) * (2 # 10).

Definition double_quote : ascii := ascii_of_nat 34.
Definition single_quote : ascii := ascii_of_nat 39.

Definition quality_score (text : string) (word_count : nat) : Q :=
  let has_question := PyStr.has_char "?"%char text in
  let has_exclamation := PyStr.has_char "!"%char text in
  let has_number := PyStr.has_digit text in
  let has_quotes :=
    PyStr.has_char double_quote text || PyStr.has_char single_quote text in
  let optimal_length := ((10 <=? word_count) && (word_count <=? 30))%nat in
  py_sum [ if has_question then 2 # 10 else 0;
           if has_exclamation then 15 # 100 else 0;
           if has_number then 1 # 10 else 0;
           if has_quotes then 15 # 100 else 0;
           if optimal_length then 2 # 10 else 0 ].

(** The number of words and of sentences of a text, as the function
    counts them. *)
Definition word_count (text : string) : nat :=
  length (PyStr.split text).
Definition sentence_count (text : string) : nat :=
  length (PyStr.re_split_sentences text).

Definition _score_text_with_keywords (text : string) : Q :=
  let text := PyStr.lower text in
  let word_count := length (PyStr.split text) in
  let sentence_count := length (PyStr.re_split_sentences text) in
  if ((word_count <? 5) || (sentence_count =? 0))%nat then 0
  else
    let content_density := of_nat word_count / of_nat sentence_count in
    let density_score := py_min (content_density / 10) 1 in
    let final_score :=
      keyword_score text * (4 # 10) +
      quality_score text word_count * (3 # 10) +
      density_score * (3 # 10) in
    py_min final_score 1.

(** What the call to the Cohere service inside the [try] block does:
    either [cohere.Client] or [co.generate] raises, or a response arrives,
    of which the code reads the texts of [response.generations]. *)
Inductive cohere_outcome : Type :=
  | CohereRaises
  | CohereResponse (generations : list string).

(** [_score_text_with_cohere], given the outcome of the service call.
    Indexing an empty [generations] raises [IndexError] inside the [try],
    which the [except] clause turns into the keyword score. *)
Definition _score_text_with_cohere (outcome : cohere_outcome) (text : string)
    : Q :=
  match outcome with
  | CohereRaises => _score_text_with_keywords text
  | CohereResponse [] => _score_text_with_keywords text
  | CohereResponse (generation :: _) =>
      let score_text := PyStr.strip generation in
      match PyStr.re_search_digits score_text with
      | Some digits => PyStr.float_of_digits digits / 100
      | None => 1 # 2
      end
  end.

(** An entry of [transcription_result.words]: a dictionary with the keys
    [start] and [end] and with the word under [word] or under [text]. *)
Record Word : Type := mkWord {
  w_start : Q;
  w_end : Q;
  w_word : option string;
  w_text : option string
}.

Record TranscriptionResult : Type := mkTranscriptionResult {
  words : list Word
}.

(** [timestamp.get('word', timestamp.get('text', ''))]. *)
Definition word_text (w : Word) : string :=
  match w_word w with
  | Some t => t
  | None => match w_text w with Some t => t | None => EmptyString end
  end.

Definition _get_text_for_timerange (word_timestamps : list Word)
    (start_time end_time : Q) : string :=
  PyStr.strip
    (fold_left
       (fun text timestamp =>
          if Qle_bool start_time (w_start timestamp) &&
             Qle_bool (w_end timestamp) end_time
          then (text ++ (word_text timestamp ++ " "))%string
          else text)
       word_timestamps EmptyString).

Definition _score_text (text : string) : Q := _score_text_with_keywords text.

Definition _score_context (text : string) : Q :=
  len (PyStr.split text) / 100.

Definition _score_transitions (scenes : list Scene) : Q := len scenes / 10.

(** [bool(xs)] of a list. *)
Definition truthy {A : Type} (xs : list A) : bool :=
  match xs with [] => false | _ => true end.

(** The seconds added before and after a group. *)
Definition context_window : Q := 5.

(** An element of [scored_groups]: the dictionary built for a group. *)
Record ScoredGroup : Type := mkScoredGroup {
  g_scenes : list Scene;
  g_start_time : Q;
  g_end_time : Q;
  g_duration : Q;
  g_text : string;
  g_score : Q
}.

Section Select.

Variable self : Selector.
Variable scenes : list Scene.

(** The test [good_duration or (current_duration >= adaptive_min and
    natural_break)] for the window [i..j], from the accumulators as they
    stand after scene [j] has been added. *)
Definition natural_break (i j : nat) (scene : Scene) : bool :=
  ((i <? j) && (S j <? length scenes))%nat &&
  negb (truthy (speech_segments scene)) &&
  match nth_error scenes (j + 1) with
  | Some next => truthy (speech_segments next)
  | None => false
  end.

Definition adaptive_max (current_group : list Scene)
    (speech_frames total_frames : Q) : Q :=
  let speech_density := speech_frames / py_max 1 total_frames in
  let content_richness := py_min 1 (len current_group / 10) in
  py_min (max_duration self)
    (min_duration self +
     (max_duration self - min_duration self) *
     ((1 # 2) * speech_density + (1 # 2) * content_richness)).

Definition emits (i j : nat) (scene : Scene) (current_group : list Scene)
    (current_duration speech_frames total_frames : Q) : bool :=
  let adaptive_min := min_duration self in
  let good_duration :=
    Qle_bool adaptive_min current_duration &&
    Qle_bool current_duration
      (adaptive_max current_group speech_frames total_frames) in
  good_duration ||
  (Qle_bool adaptive_min current_duration && natural_break i j scene).

(** [scenes[context_start:context_end]], the group recorded for the
    window [i..j]. *)
Definition full_group (i j : nat) : list Scene :=
  slice scenes (Nat.max 0 (i - 1)) (Nat.min (length scenes) (j + 2)).

(** The inner loop [for j in range(i, len(scenes))]: [rest] is
    [scenes[j:]]; the other arguments are the accumulators on entry of
    iteration [j].  Every [Scene] has the attribute [speech_density], so
    the frame counters are updated in every iteration.  The result is
    what the iterations append to [scene_groups]. *)
Fixpoint grow (i j : nat) (rest : list Scene) (current_group : list Scene)
    (current_duration speech_frames total_frames : Q) : list (list Scene) :=
  match rest with
  | [] => []
  | scene :: rest' =>
      let current_group := current_group ++ [scene] in
      let current_duration := current_duration + duration scene in
      let speech_frames := speech_frames + speech_duration scene * 30 in
      let total_frames := total_frames + duration scene * 30 in
      (if emits i j scene current_group current_duration speech_frames
            total_frames
       then [full_group i j] else []) ++
      (if Qlt_bool (max_duration self) current_duration then []
       else grow i (S j) rest' current_group current_duration speech_frames
              total_frames)
  end.

(** The outer loop [for i in range(len(scenes))]. *)
Definition scene_groups : list (list Scene) :=
  flat_map (fun i => grow i i (skipn i scenes) [] 0 0 0)
    (seq 0 (length scenes)).

Variable word_list : list Word.

(** The body of [for group in scene_groups]; [group[0]] and [group[-1]]
    fail on an empty group. *)
Definition score_group (group : list Scene) : option ScoredGroup :=
  match hd_error group, last_error group with
  | Some first, Some last =>
      let start_time := py_max 0 (start_time first - context_window) in
      let end_time :=
        py_min (end_time last + context_window) (end_time last) in
      let duration := end_time - start_time in
      let text := _get_text_for_timerange word_list start_time end_time in
      let content_score := _score_text text in
      let context_score := _score_context text in
      let transition_score := _score_transitions group in
      let total_score :=
        content_score * (1 # 2) + context_score * (3 # 10) +
        transition_score * (2 # 10) in
      Some (mkScoredGroup group start_time end_time duration text total_score)
  | _, _ => None
  end.

End Select.

(** [for x in xs], collecting the results, stopping at the first failure. *)
Fixpoint traverse {A B : Type} (f : A -> option B) (xs : list A)
    : option (list B) :=
  match xs with
  | [] => Some []
  | x :: xs' =>
      match f x with
      | None => None
      | Some y =>
          match traverse f xs' with
          | None => None
          | Some ys => Some (y :: ys)
          end
      end
  end.

(** [scored_groups.sort(key=score, reverse=True)]: a stable sort, groups
    of equal score keep their order of generation. *)
Fixpoint insert_by_score (g : ScoredGroup) (sorted : list ScoredGroup)
    : list ScoredGroup :=
  match sorted with
  | [] => [g]
  | h :: t =>
      if Qlt_bool (g_score g) (g_score h) then h :: insert_by_score g t
      else g :: sorted
  end.

Definition sort_by_score (gs : list ScoredGroup) : list ScoredGroup :=
  fold_right insert_by_score [] gs.

(** The overlap test of the selection loop. *)
Definition overlaps_with (group selected : ScoredGroup) : bool :=
  Qlt_bool (g_start_time group) (g_end_time selected) &&
  Qlt_bool (g_start_time selected) (g_end_time group).

(** The loop [for group in scored_groups] that fills [selected_groups]. *)
Fixpoint select_loop (max_highlights : Z) (selected_groups : list ScoredGroup)
    (groups : list ScoredGroup) : list ScoredGroup :=
  match groups with
  | [] => selected_groups
  | group :: rest =>
      if existsb (overlaps_with group) selected_groups then
        select_loop max_highlights selected_groups rest
      else
        let selected_groups := selected_groups ++ [group] in
        if (max_highlights <=? Z.of_nat (length selected_groups))%Z
        then selected_groups
        else select_loop max_highlights selected_groups rest
  end.

(** [Highlight(..., scene=group['scenes'][0])]. *)
Definition make_highlight (group : ScoredGroup) : option Highlight :=
  match hd_error (g_scenes group) with
  | Some first =>
      Some (mkHighlight (g_start_time group) (g_end_time group)
              (g_score group) (g_text group) first)
  | None => None
  end.

Definition select_highlights (self : Selector) (scenes : list Scene)
    (transcription_result : option TranscriptionResult)
    (max_highlights : Z) : option (list Highlight) :=
  let words :=
    match transcription_result with
    | Some r => words r
    | None => []
    end in
  match traverse (score_group words) (scene_groups self scenes) with
  | None => None
  | Some scored_groups =>
      let scored_groups := sort_by_score scored_groups in
      let selected_groups := select_loop max_highlights [] scored_groups in
      traverse make_highlight selected_groups
  end.

(** What a scored group records of its scenes: its end is the end of its
    last scene, its start is [max(0, start - context_window)] of its first
    scene. *)
Definition recorded (g : ScoredGroup) : Prop :=
  exists first last,
    hd_error (g_scenes g) = Some first /\
    last_error (g_scenes g) = Some last /\
    g_end_time g = end_time last /\
    g_start_time g = py_max 0 (start_time first - context_window).

(** The value of [current_duration] after scene [j] has been added to the
    window that starts at scene [i]. *)
Definition add_duration (acc : Q) (scene : Scene) : Q := acc + duration scene.

Definition window_duration (scenes : list Scene) (i j : nat) : Q :=
  fold_left add_duration (slice scenes i (S j)) 0.

(** Two time intervals that do not overlap. *)
Definition disjoint_times (a_start a_end b_start b_end : Q) : Prop :=
  a_end <= b_start \/ b_end <= a_start.

Definition group_disjoint (a b : ScoredGroup) : Prop :=
  disjoint_times (g_start_time a) (g_end_time a)
    (g_start_time b) (g_end_time b).

(** A highlight takes its times from the group it is made of. *)
Definition copies (g : ScoredGroup) (h : Highlight) : Prop :=
  hl_start_time h = g_start_time g /\ hl_end_time h = g_end_time g.

End HighlightSelector.

(** ** Concrete inputs used by the examples *)

Module Inputs.

Import SceneDetector HighlightSelector.

(** Two contiguous one-second scenes. *)
Definition two_short_scenes : list Scene :=
  [mkScene 0 1 []; mkScene 1 2 []].

(** Two scenes that overlap and are out of order. *)
Definition disordered_scenes : list Scene :=
  [mkScene 10 20 []; mkScene 0 15 []].

(** A reply of the scoring service without any digit, and a text of one
    word. *)
Definition reply_without_digits : cohere_outcome :=
  CohereResponse ["no idea"%string].

Definition one_word : string := "hello".

Definition five_words : string := "this result shows it all!".

(** The selector with the default durations. *)
Definition default_selector : Selector := mkSelector None 30 90.

(** One scene of thirty seconds without speech. *)
Definition one_scene : list Scene := [mkScene 0 30 []].

(** A silent scene of fifty seconds followed by ten seconds of speech. *)
Definition silent_then_speech : list Scene :=
  [mkScene 0 50 []; mkScene 50 60 [(50, 60)]].

(** Two silent scenes followed by ten seconds of speech. *)
Definition two_silent_then_speech : list Scene :=
  [mkScene 0 20 []; mkScene 20 60 []; mkScene 60 70 [(60, 70)]].

(** Three scenes of at least one second each. *)
Definition long_scenes : list Scene :=
  [mkScene 0 2 [(0, 1)]; mkScene 2 3 []; mkScene 3 7 [(4, 5)]].

End Inputs.

(** ** Vocabulary of the further properties *)

Module SceneOrder.

Import SceneDetector.

(** The scene that [merge_short_scenes] builds from two neighbours. *)
Definition fuse (a b : Scene) : Scene :=
  mkScene (start_time a) (end_time b)
    (speech_segments a ++ speech_segments b).

(** Every scene's end is related by [R] to the start of its successor. *)
Fixpoint linked (R : Q -> Q -> Prop) (scenes : list Scene) : Prop :=
  match scenes with
  | [] => True
  | s :: rest =>
      match rest with
      | [] => True
      | n :: _ => R (end_time s) (start_time n)
      end /\ linked R rest
  end.

(** No gap and no overlap between neighbours. *)
Definition contiguous (scenes : list Scene) : Prop := linked Qeq scenes.

(** All speech segments of a sequence, in order. *)
Definition all_speech (scenes : list Scene) : list (Q * Q) :=
  flat_map speech_segments scenes.

End SceneOrder.

Module TextOfWords.

Import HighlightSelector.

(** The test of [_get_text_for_timerange] on one word. *)
Definition in_timerange (start_time end_time : Q) (w : Word) : bool :=
  Qle_bool start_time (w_start w) && Qle_bool (w_end w) end_time.

(** The words [_get_text_for_timerange] takes. *)
Definition words_in_timerange (word_timestamps : list Word)
    (start_time end_time : Q) : list string :=
  map word_text (filter (in_timerange start_time end_time) word_timestamps).

(** A word text that is not empty and holds no white space. *)
Definition solid (t : string) : bool :=
  negb (PyStr.is_empty t) &&
  forallb (fun c => negb (PyStr.is_space c)) (list_ascii_of_string t).

(** A list of characters that [lstrip] leaves alone at both ends. *)
Definition firm (cs : list ascii) : Prop :=
  cs <> [] /\
  PyStr.lstrip_list cs = cs /\
  PyStr.lstrip_list (rev cs) = rev cs.

End TextOfWords.

Module Provenance.

Import SceneDetector HighlightSelector.

(** A scored group whose first and last scene are scenes of the input and
    give it its times. *)
Definition anchored (scenes : list Scene) (g : ScoredGroup) : Prop :=
  exists first last,
    hd_error (g_scenes g) = Some first /\
    last_error (g_scenes g) = Some last /\
    In first scenes /\ In last scenes /\
    g_end_time g = end_time last /\
    g_start_time g = py_max 0 (start_time first - context_window).

(** A highlight that starts at or after 0, five seconds before its anchor
    scene if possible, ends with a scene of the input, and whose anchor is a
    scene of the input. *)
Definition from_scenes (scenes : list Scene) (h : Highlight) : Prop :=
  0 <= hl_start_time h /\
  In (hl_scene h) scenes /\
  hl_start_time h = py_max 0 (start_time (hl_scene h) - context_window) /\
  exists last, In last scenes /\ hl_end_time h = end_time last.

(** A scored group whose text is the text of its own time range and whose
    score is not negative. *)
Definition text_of_range (word_list : list Word) (g : ScoredGroup) : Prop :=
  g_text g =
    _get_text_for_timerange word_list (g_start_time g) (g_end_time g) /\
  g_duration g = g_end_time g - g_start_time g /\
  0 <= g_score g.

(** The relation between a selected group and the highlight made of it. *)
Definition made_of (g : ScoredGroup) (h : Highlight) : Prop :=
  make_highlight g = Some h.

(** Scores that never increase along the list. *)
Fixpoint descending (qs : list Q) : Prop :=
  match qs with
  | [] => True
  | q :: rest => Forall (fun r => r <= q) rest /\ descending rest
  end.

(** The overlap test of the selection loop, on a candidate and a
    highlight. *)
Definition overlaps_highlight (g : ScoredGroup) (h : Highlight) : Prop :=
  g_start_time g < hl_end_time h /\ hl_start_time h < g_end_time g.

(** The highlight has the times and the score of the group. *)
Definition same_as (g : ScoredGroup) (h : Highlight) : Prop :=
  hl_start_time h = g_start_time g /\
  hl_end_time h = g_end_time g /\
  hl_score h = g_score g.

End Provenance.

(** ** scene_detector.py: detect_scenes *)

Module SceneDetection.

Import SceneDetector.

(** [int(x)] of a float: truncation towards zero. *)
Definition py_int (x : Q) : Z := Z.quot (Qnum x) (Zpos (Qden x)).

(** The constructor arguments of [SceneDetector]. *)
Record Detector : Type := mkDetector {
  min_scene_len : Q;
  threshold : Z
}.

(** The speech segments that overlap a scene, clipped to the scene: the
    loop over [speech_segments] that fills [scene_speech]. *)
Definition scene_speech (speech_segments : list (Q * Q))
    (scene_start_time scene_end_time : Q) : list (Q * Q) :=
  flat_map
    (fun seg =>
       let '(speech_start, speech_end) := seg in
       if Qle_bool speech_start scene_end_time &&
          Qle_bool scene_start_time speech_end
       then [(py_max scene_start_time speech_start,
              py_min scene_end_time speech_end)]
       else [])
    speech_segments.

Section Video.

(** The video behind [cv2.VideoCapture]: its frame rate, its number of
    frames, and for a frame index what [cap.set] followed by [cap.read]
    and the conversion to a small gray image give ([None] when [ret] is
    false); [mean_abs_diff gray last] is
    [np.mean(np.abs(gray - last_frame))]. *)
Variable self : Detector.
Variable frame : Type.
Variable fps : Q.
Variable frame_count : Z.
Variable read : Z -> option frame.
Variable mean_abs_diff : frame -> frame -> Q.
Variable speech_segments : list (Q * Q).

Definition frame_sample_rate : Z := Z.max 1 (py_int fps).
Definition frame_threshold : Q := inject_Z (threshold self) / 255.
Definition min_scene_frames : Z := py_int (min_scene_len self * fps).

(** The variables of the [while] loop ([frame_idx] only counts iterations
    for the progress message). *)
Record scan_state : Type := mkScan {
  scenes : list Scene;
  current_scene_start : Z;
  last_frame : option frame;
  actual_frame_idx : Z
}.

Definition initial : scan_state := mkScan [] 0 None 0.

(** The scene closed at a boundary or at the end of the video. *)
Definition close_scene (start_frame : Z) (scene_end_time : Q) : Scene :=
  let scene_start_time := inject_Z start_frame / fps in
  mkScene scene_start_time scene_end_time
    (scene_speech speech_segments scene_start_time scene_end_time).

(** The test for a scene change at the frame just read. *)
Definition scene_change (st : scan_state) (gray last : frame) : bool :=
  Qlt_bool frame_threshold (mean_abs_diff gray last) &&
  (min_scene_frames <=? actual_frame_idx st - current_scene_start st)%Z.

(** One iteration of the loop body after a successful read. *)
Definition step (st : scan_state) (gray : frame) : scan_state :=
  let current_time := inject_Z (actual_frame_idx st) / fps in
  let '(scenes', start') :=
    match last_frame st with
    | Some last =>
        if scene_change st gray last then
          (scenes st ++ [close_scene (current_scene_start st) current_time],
           actual_frame_idx st)
        else (scenes st, current_scene_start st)
    | None => (scenes st, current_scene_start st)
    end in
  mkScan scenes' start' (Some gray) (actual_frame_idx st + frame_sample_rate).

(** [while actual_frame_idx < frame_count], at most [fuel] iterations;
    a failed read leaves the loop. *)
Fixpoint scan (fuel : nat) (st : scan_state) : scan_state :=
  match fuel with
  | O => st
  | S fuel' =>
      if (actual_frame_idx st <? frame_count)%Z then
        match read (actual_frame_idx st) with
        | None => st
        | Some gray => scan fuel' (step st gray)
        end
      else st
  end.

(** The loop has nothing left to do in this state. *)
Definition finished (st : scan_state) : Prop :=
  (frame_count <= actual_frame_idx st)%Z \/ read (actual_frame_idx st) = None.

(** "Add final scene". *)
Definition add_final_scene (st : scan_state) : list Scene :=
  if (current_scene_start st <? frame_count - 1)%Z then
    scenes st ++
    [close_scene (current_scene_start st) (inject_Z frame_count / fps)]
  else scenes st.

(** [detect_scenes]: with [fps = 0] the division [frame_count / fps]
    raises [ZeroDivisionError], which the [except] clause turns into the
    empty list.  The index advances by at least one frame per iteration, so
    [frame_count] iterations are enough.  Errors raised inside the OpenCV
    calls are outside the model: a read delivers a frame or fails. *)
Definition detect_scenes : list Scene :=
  if Qeq_bool fps 0 then []
  else add_final_scene (scan (Z.to_nat frame_count) initial).

(** A sequence of scenes that starts at [from], in which every scene
    starts where the one before it ends, and that ends at [to]. *)
Fixpoint run (from : Q) (l : list Scene) (to : Q) : Prop :=
  match l with
  | [] => from = to
  | s :: l' => start_time s = from /\ run (end_time s) l' to
  end.

(** A scene closed at a boundary: it spans the frames [a..b], at least
    [min_scene_frames] and at least one of them, inside the video. *)
Definition closed_at_boundary (s : Scene) : Prop :=
  exists a b,
    (0 <= a < b)%Z /\ (b < frame_count)%Z /\
    (min_scene_frames <= b - a)%Z /\
    s = close_scene a (inject_Z b / fps).

(** What every state of the loop satisfies. *)
Record scan_inv (st : scan_state) : Prop := mkScanInv {
  inv_start : (0 <= current_scene_start st)%Z;
  inv_first : last_frame st = None ->
              actual_frame_idx st = 0%Z /\ scenes st = [];
  inv_later : last_frame st <> None ->
              (current_scene_start st < actual_frame_idx st)%Z;
  inv_run : run (inject_Z 0 / fps) (scenes st)
              (inject_Z (current_scene_start st) / fps);
  inv_empty : scenes st = [] -> current_scene_start st = 0%Z;
  inv_nonempty : scenes st <> [] ->
                 (current_scene_start st < frame_count)%Z;
  inv_closed : Forall closed_at_boundary (scenes st)
}.

End Video.

(** Every speech segment of the scene lies inside the scene. *)
Definition speech_inside (s : Scene) : Prop :=
  Forall (fun seg => start_time s <= fst seg /\ snd seg <= end_time s)
    (speech_segments s).

End SceneDetection.

(** ** transcriber.py *)

Module Transcriber.

Import HighlightSelector.

(** An entry of [TranscriptionResult.segments]: a dictionary with the keys
    [start], [end] and [text]; [seg_words] is the value of the optional key
    [words]; [seg_next] is the [start] of the dictionary under the optional
    key [next] ([None] when [segment.get("next")] is falsy). *)
Record Segment : Type := mkSegment {
  seg_start : Q;
  seg_end : Q;
  seg_text : string;
  seg_words : option (list Word);
  seg_next : option Q
}.

(** [TranscriptionResult.get_words_in_timerange], for [self.segments]. *)
Definition get_words_in_timerange (segments : list Segment)
    (start_time end_time : Q) : list Word :=
  flat_map
    (fun segment =>
       if Qle_bool (seg_start segment) end_time &&
          Qle_bool start_time (seg_end segment)
       then
         match seg_words segment with
         | Some ws =>
             filter
               (fun word =>
                  Qle_bool start_time (w_start word) &&
                  Qle_bool (w_start word) end_time)
               ws
         | None =>
             [mkWord (seg_start segment) (seg_end segment) None
                (Some (seg_text segment))]
         end
       else [])
    segments.

(** The variables of the loop of [get_speech_segments]. *)
Record grouping : Type := mkGrouping {
  spans : list (Q * Q);
  current_start : option Q;
  current_duration : Q
}.

Section SpeechSegments.

Variable min_segment_duration : Q.
Variable max_segment_duration : Q.

(** The body of [for segment in result.segments]. *)
Definition group_step (st : grouping) (segment : Segment) : grouping :=
  let current_start :=
    match current_start st with
    | None => seg_start segment
    | Some c => c
    end in
  let segment_duration := seg_end segment - seg_start segment in
  let '(spans1, current_start, current_duration) :=
    if Qlt_bool max_segment_duration
         (current_duration st + segment_duration)
    then (spans st ++ [(current_start, current_start + current_duration st)],
          seg_start segment, segment_duration)
    else (spans st, current_start, current_duration st + segment_duration) in
  let pause :=
    match seg_next segment with
    | Some next_start => Qlt_bool 1 (next_start - seg_end segment)
    | None => true
    end in
  if pause && Qle_bool min_segment_duration current_duration then
    mkGrouping
      (spans1 ++ [(current_start, current_start + current_duration)])
      None 0
  else mkGrouping spans1 (Some current_start) current_duration.

Definition get_speech_segments (segments : list Segment) : list (Q * Q) :=
  spans (fold_left group_step segments (mkGrouping [] None 0)).

End SpeechSegments.

(** A segment of the Whisper result, as [transcribe] reads it: the values
    of the optional keys [text], [start], [end] and [words]. *)
Inductive raw_word : Type :=
  | NotADict
  | WordDict (start end_ : option Q) (text : option string).

Record raw_segment : Type := mkRawSegment {
  raw_text : option string;
  raw_start : option Q;
  raw_end : option Q;
  raw_words : option (list raw_word)
}.

Definition or_default {A : Type} (d : A) (o : option A) : A :=
  match o with Some a => a | None => d end.

(** The words [transcribe] keeps of one segment: dictionaries with both
    times and a positive duration.  Of the dictionary it builds, the keys
    [text], [start] and [end] are kept; [confidence] is read nowhere. *)
Definition extract_words (ws : list raw_word) : list Word :=
  flat_map
    (fun word =>
       match word with
       | WordDict (Some s) (Some e) text =>
           if Qlt_bool 0 (e - s) then
             [mkWord s e None
                (Some (PyStr.strip (or_default EmptyString text)))]
           else []
       | _ => []
       end)
    ws.

(** The loop [for segment in result["segments"]] of [transcribe]: the
    segments and the words it collects. *)
Definition extract (raw : list raw_segment) : list Segment * list Word :=
  fold_left
    (fun acc segment =>
       let '(segments, words) := acc in
       let text := PyStr.strip (or_default EmptyString (raw_text segment)) in
       if PyStr.is_empty text then acc
       else
         (segments ++
          [mkSegment (or_default 0 (raw_start segment))
             (or_default 0 (raw_end segment)) text None None],
          match raw_words segment with
          | Some ws => words ++ extract_words ws
          | None => words
          end))
    raw ([], []).

(** The pseudo-word that [get_words_in_timerange] makes of a segment
    without word-level timestamps. *)
Definition whole_segment (segment : Segment) : Word :=
  mkWord (seg_start segment) (seg_end segment) None (Some (seg_text segment)).

(** The segment overlaps the time range. *)
Definition segment_in_range (start_time end_time : Q) (segment : Segment)
    : bool :=
  Qle_bool (seg_start segment) end_time &&
  Qle_bool start_time (seg_end segment).

Definition segment_duration (segment : Segment) : Q :=
  seg_end segment - seg_start segment.


End Transcriber.

(** ** main.py: generate_captions *)

Module Captions.

Import HighlightSelector Transcriber.

(** An entry of [captions]. *)
Record Caption : Type := mkCaption {
  c_start_time : Q;
  c_end_time : Q;
  c_text : string
}.

(** The loop [for word in words]; the state is [captions],
    [current_line] and [line_start_time].  A word without the key [text]
    raises [KeyError]: the result is [None]. *)
Fixpoint caption_loop (highlight : Highlight) (words : list Word)
    (captions : list Caption) (current_line : string) (line_start_time : Q)
    : option (list Caption * string * Q) :=
  match words with
  | [] => Some (captions, current_line, line_start_time)
  | word :: rest =>
      match w_text word with
      | None => None
      | Some text =>
          if (40 <? String.length ((current_line ++ " ") ++ text))%nat then
            caption_loop highlight rest
              (captions ++
               [mkCaption (line_start_time - hl_start_time highlight)
                  (w_start word - hl_start_time highlight)
                  (PyStr.strip current_line)])
              text (w_start word)
          else
            caption_loop highlight rest captions
              (if PyStr.is_empty current_line then text
               else (current_line ++ (" " ++ text))%string)
              line_start_time
      end
  end.

(** [generate_captions], for the segments of the transcription result. *)
Definition generate_captions (highlight : Highlight)
    (segments : list Segment) : option (list Caption) :=
  let words :=
    get_words_in_timerange segments (hl_start_time highlight)
      (hl_end_time highlight) in
  match words with
  | [] => Some []
  | first :: _ =>
      match caption_loop highlight words [] EmptyString (w_start first) with
      | None => None
      | Some (captions, current_line, line_start_time) =>
          if PyStr.is_empty current_line then Some captions
          else
            match last_error words with
            | Some last =>
                Some (captions ++
                      [mkCaption (line_start_time - hl_start_time highlight)
                         (w_end last - hl_start_time highlight)
                         (PyStr.strip current_line)])
            | None => None
            end
      end
  end.

(** Captions of which each starts when the one before it ends, from
    [from] to [to]. *)
Fixpoint caption_run (from : Q) (captions : list Caption) (to : Q) : Prop :=
  match captions with
  | [] => from = to
  | c :: rest => c_start_time c = from /\ caption_run (c_end_time c) rest to
  end.

End Captions.

(** ** Further concrete inputs *)

Module Samples.

Import SceneDetector HighlightSelector.

(** Two words in the first two seconds and one word much later. *)
Definition three_words : list Word :=
  [ mkWord 0 1 None (Some "hello"%string);
    mkWord 1 2 (Some "big"%string) None;
    mkWord 50 51 None (Some "world"%string) ].

(** A video of four frames at one frame per second: two dark frames, then
    two bright ones; speech during the first three seconds. *)
Definition detector : SceneDetection.Detector :=
  SceneDetection.mkDetector (1 # 2) 27.

Definition read_frame (i : Z) : option Z :=
  Some (if (i <? 2)%Z then 0%Z else 100%Z).

Definition gray_diff (gray last : Z) : Q := inject_Z (Z.abs (gray - last)).

Definition speech : list (Q * Q) := [(0, 3)].

(** Two transcript segments of two and three seconds, as [transcribe]
    builds them. *)
Definition two_segments : list Transcriber.Segment :=
  [ Transcriber.mkSegment 0 2 "hello there" None None;
    Transcriber.mkSegment 4 7 "general remarks" None None ].

(** A Whisper result: a segment with three words, one of them without
    duration, and a segment whose text is blank. *)
Definition raw_result : list Transcriber.raw_segment :=
  [ Transcriber.mkRawSegment (Some " hello there ") (Some 0) (Some 2)
      (Some [ Transcriber.WordDict (Some 0) (Some 1) (Some "hello");
              Transcriber.WordDict (Some 1) (Some 1) (Some "uh");
              Transcriber.NotADict;
              Transcriber.WordDict (Some 1) (Some 2) None ]);
    Transcriber.mkRawSegment (Some "  ") (Some 2) (Some 3) None ]%string.

(** A highlight over the first ten seconds. *)
Definition first_ten : Highlight :=
  mkHighlight 0 10 (1 # 2) EmptyString (mkScene 0 10 []).

End Samples.

(** * Properties *)

Import SceneDetector HighlightSelector.

(** ** The model on concrete inputs *)

Example split_words :
  PyStr.split "  a b  c " = ["a"; "b"; "c"]%string.
Proof. reflexivity. Qed.

Example re_split_two_sentences :
  PyStr.re_split_sentences "a. b." = ["a"; " b"; EmptyString]%string.
Proof. reflexivity. Qed.

Example strip_both_ends : PyStr.strip "  a b  " = "a b"%string.
Proof. reflexivity. Qed.

Example keyword_score_of_a_sentence :
  _score_text_with_keywords
    "This is an amazing result, because 5 shows it! Really?" == 615 # 1000.
Proof. vm_compute. reflexivity. Qed.

Example cohere_score_parsed :
  _score_text_with_cohere (CohereResponse [" 85 out of 100"%string])
    Inputs.one_word == 85 # 100.
Proof. vm_compute. reflexivity. Qed.

Example merge_into_previous :
  merge_short_scenes [mkScene 0 1 []; mkScene 1 7 []; mkScene 7 8 []] 5 =
    [mkScene 0 8 []].
Proof. reflexivity. Qed.

Example natural_break_group :
  scene_groups Inputs.default_selector Inputs.two_silent_then_speech =
    [Inputs.two_silent_then_speech].
Proof. vm_compute. reflexivity. Qed.

(** ** Comparisons *)

Lemma Qlt_bool_true (a b : Q) : Qlt_bool a b = true <-> a < b.
Proof.
  unfold Qlt_bool. rewrite negb_true_iff. split; intro H.
  - destruct (Qlt_le_dec a b) as [Hlt | Hle]; [exact Hlt |].
    apply Qle_bool_iff in Hle. congruence.
  - destruct (Qle_bool b a) eqn:E; [| reflexivity].
    apply Qle_bool_iff in E. lra.
Qed.

Lemma Qlt_bool_false (a b : Q) : Qlt_bool a b = false <-> b <= a.
Proof.
  unfold Qlt_bool. rewrite negb_false_iff. apply Qle_bool_iff.
Qed.

Lemma Qle_bool_false (a b : Q) : Qle_bool a b = false <-> b < a.
Proof.
  rewrite <- Qlt_bool_true. unfold Qlt_bool.
  destruct (Qle_bool a b); simpl; intuition congruence.
Qed.

Lemma py_min_le_r (a b : Q) : py_min a b <= b.
Proof.
  unfold py_min. destruct (Qlt_bool b a) eqn:E; [lra |].
  apply Qlt_bool_false in E. exact E.
Qed.

Lemma py_min_ge (a b c : Q) : c <= a -> c <= b -> c <= py_min a b.
Proof. unfold py_min. destruct (Qlt_bool b a); auto. Qed.

(** ** Lists *)

Lemma pop_app_last {A : Type} (xs : list A) (x : A) :
  pop (xs ++ [x]) = Some (xs, x).
Proof.
  induction xs as [| y ys IH]; simpl; [reflexivity |].
  rewrite IH. reflexivity.
Qed.

Lemma pop_spec {A : Type} (xs : list A) :
  match pop xs with
  | None => xs = []
  | Some (init, l) => xs = init ++ [l]
  end.
Proof.
  induction xs as [| y ys IH]; simpl; [reflexivity |].
  destruct (pop ys) as [[init l] |]; subst; reflexivity.
Qed.

Lemma last_error_app_last {A : Type} (xs : list A) (x : A) :
  last_error (xs ++ [x]) = Some x.
Proof.
  induction xs as [| y ys IH]; simpl; [reflexivity |].
  destruct (ys ++ [x]) eqn:E; [destruct ys; discriminate | exact IH].
Qed.

Lemma last_error_cons {A : Type} (x y : A) (xs : list A) :
  last_error (x :: y :: xs) = last_error (y :: xs).
Proof. reflexivity. Qed.

(** ** merge_short_scenes *)

Section Merge.

Variable min_duration : Q.

Lemma first_start_app (l : list Scene) (s t : Scene) :
  first_start ((l ++ [s]) ++ [t]) = first_start (l ++ [s]).
Proof. destruct l; reflexivity. Qed.

Lemma first_start_fuse (l : list Scene) (s t : Scene) :
  start_time s = start_time t ->
  first_start (l ++ [s]) = first_start (l ++ [t]).
Proof. destruct l; simpl; unfold first_start; simpl; congruence. Qed.

Lemma last_end_app (l : list Scene) (s : Scene) :
  last_end (l ++ [s]) = Some (end_time s).
Proof. unfold last_end. rewrite last_error_app_last. reflexivity. Qed.

(** When no scene is short, the loop only moves scenes to [merged]. *)
Lemma merge_loop_all_long (rest : list Scene) :
  forall merged current,
    Forall (long_enough min_duration) (current :: rest) ->
    let '(m, c) := merge_loop min_duration merged current rest in
    m ++ [c] = merged ++ current :: rest.
Proof.
  induction rest as [| next rest' IH]; intros merged current Hall; simpl.
  - reflexivity.
  - inversion Hall as [| ? ? Hcur Hrest]; subst.
    assert (E : Qlt_bool (duration current) min_duration = false)
      by (apply Qlt_bool_false; exact Hcur).
    rewrite E. specialize (IH (merged ++ [current]) next Hrest).
    destruct (merge_loop min_duration (merged ++ [current]) next rest').
    rewrite IH, <- app_assoc. reflexivity.
Qed.

Lemma consistent_cons (s : Scene) (rest : list Scene) :
  consistent (s :: rest) = true ->
  start_time s <= end_time s /\
  match rest with
  | [] => True
  | n :: _ => end_time s <= start_time n
  end /\
  consistent rest = true.
Proof.
  simpl. rewrite !andb_true_iff, Qle_bool_iff. intros [[H1 H2] H3].
  repeat split; auto. destruct rest; [exact I | apply Qle_bool_iff; exact H2].
Qed.

Lemma consistent_intro (s : Scene) (rest : list Scene) :
  start_time s <= end_time s ->
  match rest with
  | [] => True
  | n :: _ => end_time s <= start_time n
  end ->
  consistent rest = true ->
  consistent (s :: rest) = true.
Proof.
  intros H1 H2 H3. simpl. rewrite !andb_true_iff, Qle_bool_iff.
  repeat split; auto. destruct rest; [reflexivity | apply Qle_bool_iff; exact H2].
Qed.

(** The invariant of the loop on a consistent input. *)
Lemma merge_loop_inv (rest : list Scene) :
  forall merged current,
    Forall (long_enough min_duration) merged ->
    Forall (fun p => end_time p <= end_time current) merged ->
    consistent (current :: rest) = true ->
    let '(m, c) := merge_loop min_duration merged current rest in
    Forall (long_enough min_duration) m /\
    Forall (fun p => end_time p <= end_time c) m /\
    first_start (m ++ [c]) = first_start (merged ++ [current]) /\
    last_end [c] = last_end (current :: rest).
Proof.
  induction rest as [| next rest' IH]; intros merged current Hlong Hend Hcons;
    simpl.
  - auto.
  - apply consistent_cons in Hcons. destruct Hcons as (Hc & Hn & Hrest).
    pose proof (consistent_cons _ _ Hrest) as (Hnc & Hnn & Hrest').
    destruct (Qlt_bool (duration current) min_duration) eqn:E.
    + set (fused := mkScene (start_time current) (end_time next)
                     (speech_segments current ++ speech_segments next)).
      assert (Hf : consistent (fused :: rest') = true).
      { apply consistent_intro; simpl; [lra | exact Hnn | exact Hrest']. }
      assert (Hend' : Forall (fun p => end_time p <= end_time fused) merged).
      { eapply Forall_impl; [| exact Hend]. simpl. intros p Hp. lra. }
      specialize (IH merged fused Hlong Hend' Hf).
      destruct (merge_loop min_duration merged fused rest') as [m c].
      destruct IH as (I1 & I2 & I3 & I4).
      repeat split; auto.
      * rewrite I3. apply first_start_fuse. reflexivity.
      * rewrite I4. unfold last_end. destruct rest'; reflexivity.
    + apply Qlt_bool_false in E.
      assert (Hlong' : Forall (long_enough min_duration) (merged ++ [current])).
      { apply Forall_app. split; [exact Hlong |]. constructor; [exact E | constructor]. }
      assert (Hend' : Forall (fun p => end_time p <= end_time next)
                        (merged ++ [current])).
      { apply Forall_app. split.
        - eapply Forall_impl; [| exact Hend]. simpl. intros p Hp. lra.
        - constructor; [lra | constructor]. }
      specialize (IH (merged ++ [current]) next Hlong' Hend' Hrest).
      destruct (merge_loop min_duration (merged ++ [current]) next rest')
        as [m c].
      destruct IH as (I1 & I2 & I3 & I4).
      repeat split; auto.
      rewrite I3. apply first_start_app.
Qed.

End Merge.

(** The end of [merge_short_scenes] on a consistent input: coverage is
    kept, and a short scene survives only as the single scene into which
    everything was fused. *)
Lemma merge_tail_inv (min_duration : Q) (first : Scene) (rest merged : list Scene)
    (current : Scene) :
  Forall (long_enough min_duration) merged ->
  Forall (fun p => end_time p <= end_time current) merged ->
  first_start (merged ++ [current]) = Some (start_time first) ->
  last_end [current] = last_end (first :: rest) ->
  let out := merge_tail min_duration merged current in
  first_start out = Some (start_time first) /\
  last_end out = last_end (first :: rest) /\
  (Forall (long_enough min_duration) out \/
   exists s, out = [s] /\ duration s < min_duration).
Proof.
  intros Hlong Hend Hfirst Hlast. unfold merge_tail.
  destruct (Qle_bool min_duration (duration current)) eqn:E.
  - apply Qle_bool_iff in E. repeat split.
    + exact Hfirst.
    + rewrite last_end_app. exact Hlast.
    + left. apply Forall_app. split; [exact Hlong |].
      constructor; [exact E | constructor].
  - apply Qle_bool_false in E. pose proof (pop_spec merged) as Hpop.
    destruct (pop merged) as [[init prev] |].
    + subst merged.
      apply Forall_app in Hlong. destruct Hlong as [Hinit Hprev].
      apply Forall_app in Hend. destruct Hend as [_ Hpe].
      inversion Hprev as [| ? ? Hp _]; subst.
      inversion Hpe as [| ? ? Hpe' _]; subst.
      repeat split.
      * rewrite first_start_app in Hfirst. rewrite <- Hfirst.
        apply first_start_fuse. reflexivity.
      * rewrite last_end_app. exact Hlast.
      * left. apply Forall_app. split; [exact Hinit |].
        constructor; [| constructor].
        unfold long_enough, duration in *. simpl. lra.
    + subst merged. simpl in *. repeat split; auto.
      right. exists current. split; [reflexivity | exact E].
Qed.

(** C5: on a sequence in which every scene lasts at least [min_duration],
    [merge_short_scenes] returns the sequence unchanged. *)
Theorem merge_short_scenes_fixed_point (scenes : list Scene) (min_duration : Q) :
  Forall (fun s => min_duration <= duration s) scenes ->
  merge_short_scenes scenes min_duration = scenes.
Proof.
  intros Hall. destruct scenes as [| first rest]; [reflexivity |].
  unfold merge_short_scenes.
  pose proof (merge_loop_all_long min_duration rest [] first Hall) as Hloop.
  destruct (merge_loop min_duration [] first rest) as [m c].
  simpl in Hloop. unfold merge_tail.
  assert (Hc : min_duration <= duration c).
  { rewrite <- Hloop in Hall. apply Forall_app in Hall.
    destruct Hall as [_ Hc]. inversion Hc; assumption. }
  apply Qle_bool_iff in Hc. rewrite Hc. exact Hloop.
Qed.

Lemma merge_short_scenes_fixed_point_witness :
  Forall (fun s => 1 <= duration s) Inputs.long_scenes /\
  merge_short_scenes Inputs.long_scenes 1 = Inputs.long_scenes.
Proof.
  assert (H : Forall (fun s => 1 <= duration s) Inputs.long_scenes).
  { repeat constructor; vm_compute; discriminate. }
  split; [exact H | exact (merge_short_scenes_fixed_point _ 1 H)].
Defined.

(** C2, as the code has it: on an ordered, non-overlapping sequence without
    negative durations the result starts where the input starts and ends
    where the input ends, and no scene of the result is shorter than
    [min_duration] unless the result is the single scene into which the
    whole input was fused. *)
Theorem merge_short_scenes_coverage (scenes : list Scene) (min_duration : Q) :
  consistent scenes = true ->
  let out := merge_short_scenes scenes min_duration in
  first_start out = first_start scenes /\
  last_end out = last_end scenes /\
  (Forall (fun s => min_duration <= duration s) out \/
   exists s, out = [s] /\ duration s < min_duration).
Proof.
  intros Hcons. destruct scenes as [| first rest].
  - simpl. repeat split; auto.
  - unfold merge_short_scenes.
    pose proof (merge_loop_inv min_duration rest [] first
                  (Forall_nil _) (Forall_nil _) Hcons) as Hinv.
    destruct (merge_loop min_duration [] first rest) as [m c].
    destruct Hinv as (I1 & I2 & I3 & I4).
    exact (merge_tail_inv min_duration first rest m c I1 I2 I3 I4).
Qed.

Lemma merge_short_scenes_coverage_witness :
  consistent Inputs.two_short_scenes = true /\
  first_start (merge_short_scenes Inputs.two_short_scenes 5) = Some 0 /\
  last_end (merge_short_scenes Inputs.two_short_scenes 5) = Some 2.
Proof.
  assert (H : consistent Inputs.two_short_scenes = true) by reflexivity.
  destruct (merge_short_scenes_coverage Inputs.two_short_scenes 5 H)
    as (H1 & H2 & _).
  split; [exact H | split; [exact H1 | exact H2]].
Defined.

(** C2 as stated fails: two contiguous one-second scenes and
    [min_duration = 5] give one scene of two seconds, although the input
    has two scenes. *)
Lemma merge_short_scenes_short_survivor :
  consistent Inputs.two_short_scenes = true /\
  length Inputs.two_short_scenes = 2%nat /\
  merge_short_scenes Inputs.two_short_scenes 5 = [mkScene 0 2 []] /\
  duration (mkScene 0 2 []) < 5.
Proof.
  repeat split.
Qed.

(** C3, as the code has it: [merge_short_scenes] checks nothing and never
    fails; every call returns a sequence, which is empty exactly when the
    input is empty. *)
Theorem merge_short_scenes_never_fails (scenes : list Scene) (min_duration : Q) :
  exists out,
    merge_short_scenes_call scenes min_duration = inr out /\
    (out = [] <-> scenes = []).
Proof.
  exists (merge_short_scenes scenes min_duration). split; [reflexivity |].
  destruct scenes as [| first rest]; [simpl; tauto |].
  unfold merge_short_scenes.
  destruct (merge_loop min_duration [] first rest) as [m c].
  unfold merge_tail. split; [| discriminate].
  destruct (Qle_bool min_duration (duration c)).
  - destruct m; discriminate.
  - destruct (pop m) as [[init prev] |].
    + destruct init; discriminate.
    + destruct m; discriminate.
Qed.

(** C3 as stated fails: a sequence whose scenes overlap and are out of
    order is merged without any error. *)
Lemma merge_short_scenes_accepts_disorder :
  consistent Inputs.disordered_scenes = false /\
  merge_short_scenes_call Inputs.disordered_scenes 1 =
    inr Inputs.disordered_scenes /\
  merge_short_scenes_call Inputs.disordered_scenes 1 <> inl InvalidInputError.
Proof.
  repeat split. discriminate.
Qed.

(** ** The keyword score *)

Lemma is_space_lower_char (c : ascii) :
  PyStr.is_space (PyStr.lower_char c) = PyStr.is_space c.
Proof.
  destruct c as [b0 b1 b2 b3 b4 b5 b6 b7].
  destruct b0, b1, b2, b3, b4, b5, b6, b7; reflexivity.
Qed.

Lemma is_sentence_end_lower_char (c : ascii) :
  PyStr.is_sentence_end (PyStr.lower_char c) = PyStr.is_sentence_end c.
Proof.
  destruct c as [b0 b1 b2 b3 b4 b5 b6 b7].
  destruct b0, b1, b2, b3, b4, b5, b6, b7; reflexivity.
Qed.

Lemma is_empty_snoc (cur : string) (c : ascii) :
  PyStr.is_empty (cur ++ String c EmptyString) = false.
Proof. destruct cur; reflexivity. Qed.

(** Lowering a text changes neither its number of words ... *)
Lemma split_from_lower (s : string) :
  forall cur cur',
    PyStr.is_empty cur = PyStr.is_empty cur' ->
    length (PyStr.split_from cur (PyStr.lower s)) =
    length (PyStr.split_from cur' s).
Proof.
  induction s as [| c s IH]; intros cur cur' Hcur; simpl.
  - rewrite Hcur. destruct (PyStr.is_empty cur'); reflexivity.
  - rewrite is_space_lower_char. destruct (PyStr.is_space c).
    + rewrite Hcur. destruct (PyStr.is_empty cur'); simpl;
        rewrite (IH EmptyString EmptyString); reflexivity.
    + apply IH. rewrite !is_empty_snoc. reflexivity.
Qed.

Lemma word_count_lower (text : string) :
  length (PyStr.split (PyStr.lower text)) = word_count text.
Proof. apply split_from_lower. reflexivity. Qed.

(** ... nor its number of sentences. *)
Lemma re_split_from_lower (s : string) :
  forall cur cur' in_run,
    length (PyStr.re_split_from cur in_run (PyStr.lower s)) =
    length (PyStr.re_split_from cur' in_run s).
Proof.
  induction s as [| c s IH]; intros cur cur' in_run; simpl.
  - reflexivity.
  - rewrite is_sentence_end_lower_char.
    destruct (PyStr.is_sentence_end c); [| apply IH].
    destruct in_run; simpl; rewrite (IH EmptyString EmptyString); reflexivity.
Qed.

Lemma sentence_count_lower (text : string) :
  length (PyStr.re_split_sentences (PyStr.lower text)) = sentence_count text.
Proof. apply re_split_from_lower. Qed.

(** [re.split] always returns at least one piece. *)
Lemma re_split_from_nonempty (s : string) :
  forall cur in_run, (1 <= length (PyStr.re_split_from cur in_run s))%nat.
Proof.
  induction s as [| c s IH]; intros cur in_run; simpl.
  - lia.
  - destruct (PyStr.is_sentence_end c); [| apply IH].
    destruct in_run; [apply IH | simpl; lia].
Qed.

Lemma sentence_count_pos (text : string) : (1 <= sentence_count text)%nat.
Proof. apply re_split_from_nonempty. Qed.

Lemma of_nat_nonneg (n : nat) : 0 <= of_nat n.
Proof.
  unfold of_nat. change 0 with (inject_Z 0). rewrite <- Zle_Qle. lia.
Qed.

Lemma Qdiv_nonneg (a b : Q) : 0 <= a -> 0 <= b -> 0 <= a / b.
Proof.
  intros Ha Hb. unfold Qdiv. apply Qmult_le_0_compat; [exact Ha |].
  apply Qinv_le_0_compat. exact Hb.
Qed.

Lemma keyword_score_nonneg (text : string) : 0 <= keyword_score text.
Proof.
  unfold keyword_score.
  pose proof (of_nat_nonneg (high_impact_words text)).
  pose proof (of_nat_nonneg (content_indicators text)).
  pose proof (of_nat_nonneg (emotional_triggers text)).
  pose proof (of_nat_nonneg (call_to_action text)).
  lra.
Qed.

Lemma quality_score_nonneg (text : string) (n : nat) :
  0 <= quality_score text n.
Proof.
  unfold quality_score, py_sum. cbv zeta. cbn [fold_left].
  destruct (PyStr.has_char "?" text), (PyStr.has_char "!" text),
    (PyStr.has_digit text),
    (PyStr.has_char double_quote text || PyStr.has_char single_quote text),
    ((10 <=? n)%nat && (n <=? 30)%nat); lra.
Qed.

(** C4: the keyword score of a text with fewer than five words (or without
    a sentence) is exactly 0, and the score of a text with at least five
    words and at least one sentence lies between 0 and 1. *)
Theorem score_text_with_keywords_range (text : string) :
  ((word_count text < 5)%nat \/ sentence_count text = 0%nat ->
   _score_text_with_keywords text = 0) /\
  ((5 <= word_count text)%nat /\ (1 <= sentence_count text)%nat ->
   0 <= _score_text_with_keywords text <= 1).
Proof.
  unfold _score_text_with_keywords. cbv zeta.
  rewrite word_count_lower, sentence_count_lower. split.
  - intros H.
    assert (E : ((word_count text <? 5) || (sentence_count text =? 0))%nat
                = true).
    { apply orb_true_iff. destruct H as [H | H].
      - left. apply Nat.ltb_lt. exact H.
      - right. apply Nat.eqb_eq. exact H. }
    rewrite E. reflexivity.
  - intros [Hw Hs].
    assert (E : ((word_count text <? 5) || (sentence_count text =? 0))%nat
                = false).
    { apply orb_false_iff. split.
      - apply Nat.ltb_ge. exact Hw.
      - apply Nat.eqb_neq. lia. }
    rewrite E. split; [| apply py_min_le_r].
    apply py_min_ge; [| lra].
    pose proof (keyword_score_nonneg (PyStr.lower text)) as Hk.
    pose proof (quality_score_nonneg (PyStr.lower text) (word_count text))
      as Hq.
    assert (Hd : 0 <= py_min
                   (of_nat (word_count text) / of_nat (sentence_count text) / 10)
                   1).
    { apply py_min_ge; [| lra]. apply Qdiv_nonneg; [| lra].
      apply Qdiv_nonneg; apply of_nat_nonneg. }
    lra.
Qed.

Lemma score_text_with_keywords_range_witness :
  _score_text_with_keywords Inputs.one_word = 0 /\
  0 <= _score_text_with_keywords Inputs.five_words <= 1.
Proof.
  split.
  - apply (proj1 (score_text_with_keywords_range Inputs.one_word)).
    left. vm_compute. lia.
  - apply (proj2 (score_text_with_keywords_range Inputs.five_words)).
    split; vm_compute; lia.
Defined.

(** C10: the list has 36 keywords, so the slices [40:52] and [52:] are
    empty, the emotional-trigger and call-to-action counts are 0 for
    every text, and the keyword score is
    [0.15 * high_impact_words + 0.25 * content_indicators]. *)
Theorem upper_keyword_tiers_empty (text : string) :
  length viral_keywords = 36%nat /\
  slice viral_keywords 40 52 = [] /\
  skipn 52 viral_keywords = [] /\
  emotional_triggers text = 0%nat /\
  call_to_action text = 0%nat /\
  keyword_score text ==
    (15 # 100) * of_nat (high_impact_words text) +
    (25 # 100) * of_nat (content_indicators text).
Proof.
  repeat split.
  unfold keyword_score.
  change (emotional_triggers text) with 0%nat.
  change (call_to_action text) with 0%nat.
  change (of_nat 0) with 0. lra.
Qed.

(** ** The Cohere score *)

(** C7, as the code has it: when the service call raises, or the response
    has no generation, the result is the keyword score of the text; when
    the first generation holds no digit, the result is the default 0.5.
    The function returns a score in every case. *)
Theorem score_text_with_cohere_fallback (text : string) :
  _score_text_with_cohere CohereRaises text = _score_text_with_keywords text /\
  _score_text_with_cohere (CohereResponse []) text =
    _score_text_with_keywords text /\
  (forall generation others,
     PyStr.re_search_digits (PyStr.strip generation) = None ->
     _score_text_with_cohere (CohereResponse (generation :: others)) text =
       1 # 2).
Proof.
  repeat split. intros generation others Hnone. simpl. rewrite Hnone.
  reflexivity.
Qed.

Lemma score_text_with_cohere_fallback_witness :
  PyStr.re_search_digits (PyStr.strip "no idea") = None /\
  _score_text_with_cohere Inputs.reply_without_digits Inputs.one_word = 1 # 2.
Proof.
  assert (H : PyStr.re_search_digits (PyStr.strip "no idea") = None)
    by reflexivity.
  split; [exact H |].
  exact (proj2 (proj2 (score_text_with_cohere_fallback Inputs.one_word))
           "no idea"%string [] H).
Defined.

(** C7 as stated fails: a reply without digits gives 0.5, not the keyword
    score of the text, which is 0 for a text of one word. *)
Lemma score_text_with_cohere_unparsed_reply :
  PyStr.re_search_digits (PyStr.strip "no idea") = None /\
  _score_text_with_cohere Inputs.reply_without_digits Inputs.one_word = 1 # 2 /\
  _score_text_with_keywords Inputs.one_word = 0 /\
  ~ _score_text_with_cohere Inputs.reply_without_digits Inputs.one_word ==
    _score_text_with_keywords Inputs.one_word.
Proof.
  repeat split. vm_compute. discriminate.
Qed.

(** ** Candidate groups *)

Section Candidates.

Variable self : Selector.
Variable scenes : list Scene.

(** Every group appended by the inner loop is the context range of a
    window it visited. *)
Lemma grow_In (i : nat) (rest : list Scene) :
  forall j current_group current_duration speech_frames total_frames g,
    In g (grow self scenes i j rest current_group current_duration
            speech_frames total_frames) ->
    exists j', (j <= j' < j + length rest)%nat /\ g = full_group scenes i j'.
Proof.
  induction rest as [| scene rest' IH]; intros j cg cd sf tf g Hin;
    simpl in Hin.
  - contradiction.
  - apply in_app_or in Hin. destruct Hin as [Hin | Hin].
    + destruct (emits _ _ _ _ _ _ _ _) in Hin; [| contradiction].
      destruct Hin as [<- | []]. exists j. simpl. split; [lia | reflexivity].
    + destruct (Qlt_bool _ _) in Hin; [contradiction |].
      apply IH in Hin. destruct Hin as (j' & Hj' & ->).
      exists j'. simpl. split; [lia | reflexivity].
Qed.

Lemma scene_groups_In (g : list Scene) :
  In g (scene_groups self scenes) ->
  exists i j, (i <= j < length scenes)%nat /\ g = full_group scenes i j.
Proof.
  unfold scene_groups. intros Hin. apply in_flat_map in Hin.
  destruct Hin as (i & Hi & Hin). apply in_seq in Hi.
  apply grow_In in Hin. destruct Hin as (j & Hj & ->).
  rewrite length_skipn in Hj. exists i, j. split; [lia | reflexivity].
Qed.

Lemma full_group_nonempty (i j : nat) :
  (i <= j < length scenes)%nat -> full_group scenes i j <> [].
Proof.
  intros Hij Hnil. apply (f_equal (@length Scene)) in Hnil.
  unfold full_group, slice in Hnil.
  rewrite length_firstn, length_skipn in Hnil. simpl in Hnil. lia.
Qed.

Lemma scene_groups_nonempty :
  Forall (fun g => g <> []) (scene_groups self scenes).
Proof.
  apply Forall_forall. intros g Hin. apply scene_groups_In in Hin.
  destruct Hin as (i & j & Hij & ->). apply full_group_nonempty. exact Hij.
Qed.

End Candidates.

(** ** Scoring a group *)

Lemma last_error_nonempty {A : Type} (xs : list A) :
  xs <> [] -> exists l, last_error xs = Some l.
Proof.
  intros Hne. destruct (pop xs) as [[init l] |] eqn:E.
  - pose proof (pop_spec xs) as Hp. rewrite E in Hp. subst xs.
    exists l. apply last_error_app_last.
  - pose proof (pop_spec xs) as Hp. rewrite E in Hp. contradiction.
Qed.

(** The right pad [min(end + context_window, end)] is the end itself. *)
Lemma right_pad_noop (e : Q) : py_min (e + context_window) e = e.
Proof.
  unfold py_min, context_window.
  assert (E : Qlt_bool e (e + 5) = true) by (apply Qlt_bool_true; lra).
  rewrite E. reflexivity.
Qed.

Lemma score_group_recorded (word_list : list Word) (group : list Scene) :
  group <> [] ->
  exists g,
    score_group word_list group = Some g /\ g_scenes g = group /\ recorded g.
Proof.
  intros Hne. destruct (last_error_nonempty group Hne) as [last Hlast].
  destruct group as [| first rest]; [contradiction |].
  unfold score_group. rewrite Hlast. simpl hd_error. cbv zeta.
  eexists. split; [reflexivity |]. split; [reflexivity |].
  exists first, last. simpl. rewrite right_pad_noop. auto.
Qed.

Lemma traverse_Forall2 {A B : Type} (f : A -> option B) (P : A -> Prop)
    (R : A -> B -> Prop) (xs : list A) :
  (forall x, P x -> exists y, f x = Some y /\ R x y) ->
  Forall P xs ->
  exists ys, traverse f xs = Some ys /\ Forall2 R xs ys.
Proof.
  intros Hf Hall. induction Hall as [| x xs' Hx _ IH]; simpl.
  - exists []. auto.
  - destruct (Hf x Hx) as (y & -> & Hy). destruct IH as (ys & -> & Hys).
    exists (y :: ys). auto.
Qed.

Lemma traverse_inv {A B : Type} (f : A -> option B) (xs : list A) :
  forall ys,
    traverse f xs = Some ys ->
    Forall2 (fun x y => f x = Some y) xs ys.
Proof.
  induction xs as [| x xs' IH]; simpl; intros ys H.
  - injection H as <-. constructor.
  - destruct (f x) as [y |] eqn:E; [| discriminate].
    destruct (traverse f xs') as [ys' |]; [| discriminate].
    injection H as <-. constructor; auto.
Qed.

(** The scoring loop succeeds on the groups that candidate building
    records. *)
Lemma scored_groups_recorded (self : Selector) (scenes : list Scene)
    (word_list : list Word) :
  exists scored,
    traverse (score_group word_list) (scene_groups self scenes) = Some scored /\
    map g_scenes scored = scene_groups self scenes /\
    Forall recorded scored.
Proof.
  destruct (traverse_Forall2 (score_group word_list) (fun g => g <> [])
              (fun group g => g_scenes g = group /\ recorded g)
              (scene_groups self scenes)
              (score_group_recorded word_list)
              (scene_groups_nonempty self scenes)) as (scored & Ht & Hall).
  exists scored. split; [exact Ht |]. clear Ht.
  induction Hall as [| group g groups gs [Hg Hr] _ [IH1 IH2]]; simpl.
  - auto.
  - split; [congruence | constructor; assumption].
Qed.

(** C6: every candidate group that [select_highlights] records has as
    its end the end of its last scene, the right pad
    [min(end + context_window, end)] adding nothing, and as its start
    [max(0, start - context_window)] of its first scene. *)
Theorem scored_group_times (self : Selector) (scenes : list Scene)
    (word_list : list Word) :
  (forall e, py_min (e + context_window) e = e) /\
  exists scored,
    traverse (score_group word_list) (scene_groups self scenes) = Some scored /\
    map g_scenes scored = scene_groups self scenes /\
    Forall
      (fun g =>
         exists first last,
           hd_error (g_scenes g) = Some first /\
           last_error (g_scenes g) = Some last /\
           g_end_time g = end_time last /\
           g_start_time g = py_max 0 (start_time first - context_window))
      scored.
Proof.
  split; [exact right_pad_noop | apply scored_groups_recorded].
Qed.

(** ** The selection loop *)

Lemma overlaps_with_false (group selected : ScoredGroup) :
  overlaps_with group selected = false -> group_disjoint selected group.
Proof.
  unfold overlaps_with, group_disjoint, disjoint_times. intros H.
  apply andb_false_iff in H. destruct H as [H | H];
    apply Qlt_bool_false in H; [left | right]; exact H.
Qed.

Lemma existsb_false_Forall {A : Type} (f : A -> bool) (xs : list A) :
  existsb f xs = false -> Forall (fun x => f x = false) xs.
Proof.
  induction xs as [| x xs' IH]; simpl; intros H; constructor;
    apply orb_false_iff in H; destruct H; auto.
Qed.

Lemma ForallOrdPairs_snoc {A : Type} (R : A -> A -> Prop) (l : list A) (x : A) :
  ForallOrdPairs R l ->
  Forall (fun s => R s x) l ->
  ForallOrdPairs R (l ++ [x]).
Proof.
  intros Hl Hx. induction Hl as [| a l' Ha Hl' IH]; simpl.
  - constructor; constructor.
  - inversion Hx as [| ? ? Hax Hx']; subst. constructor.
    + apply Forall_app. split; [exact Ha | constructor; [exact Hax | constructor]].
    + apply IH. exact Hx'.
Qed.

Lemma ForallOrdPairs_nth_error {A : Type} (R : A -> A -> Prop) (l : list A) :
  (forall a b, R a b -> R b a) ->
  ForallOrdPairs R l ->
  forall i j a b,
    i <> j -> nth_error l i = Some a -> nth_error l j = Some b -> R a b.
Proof.
  intros Hsym Hl. induction Hl as [| x l' Hx Hl' IH]; intros i j a b Hij Ha Hb.
  - destruct i; discriminate.
  - rewrite Forall_forall in Hx. destruct i as [| i], j as [| j];
      simpl in Ha, Hb.
    + contradiction.
    + injection Ha as <-. apply Hx. eapply nth_error_In. exact Hb.
    + injection Hb as <-. apply Hsym, Hx. eapply nth_error_In. exact Ha.
    + apply (IH i j); auto.
Qed.

Lemma group_disjoint_sym (a b : ScoredGroup) :
  group_disjoint a b -> group_disjoint b a.
Proof. unfold group_disjoint, disjoint_times. tauto. Qed.

Section Loop.

Variable max_highlights : Z.

(** The selected groups stay pairwise disjoint. *)
Lemma select_loop_disjoint (groups : list ScoredGroup) :
  forall selected,
    ForallOrdPairs group_disjoint selected ->
    ForallOrdPairs group_disjoint (select_loop max_highlights selected groups).
Proof.
  induction groups as [| group rest IH]; intros selected Hsel; simpl.
  - exact Hsel.
  - destruct (existsb (overlaps_with group) selected) eqn:E.
    + apply IH. exact Hsel.
    + assert (Hnew : ForallOrdPairs group_disjoint (selected ++ [group])).
      { apply ForallOrdPairs_snoc; [exact Hsel |].
        apply existsb_false_Forall in E.
        eapply Forall_impl; [| exact E].
        intros s Hs. apply overlaps_with_false. exact Hs. }
      destruct (max_highlights <=? Z.of_nat (length (selected ++ [group])))%Z;
        [exact Hnew | apply IH; exact Hnew].
Qed.

(** The selected groups are groups that were offered. *)
Lemma select_loop_Forall (P : ScoredGroup -> Prop) (groups : list ScoredGroup) :
  forall selected,
    Forall P selected -> Forall P groups ->
    Forall P (select_loop max_highlights selected groups).
Proof.
  induction groups as [| group rest IH]; intros selected Hsel Hgs; simpl.
  - exact Hsel.
  - inversion Hgs as [| ? ? Hg Hrest]; subst.
    assert (Hnew : Forall P (selected ++ [group])).
    { apply Forall_app. split; [exact Hsel | constructor; [exact Hg | constructor]]. }
    destruct (existsb (overlaps_with group) selected); [apply IH; assumption |].
    destruct (max_highlights <=? Z.of_nat (length (selected ++ [group])))%Z;
      [exact Hnew | apply IH; assumption].
Qed.

(** As long as fewer than [max_highlights] groups are selected, the loop
    ends with at most [max_highlights] groups. *)
Lemma select_loop_length (groups : list ScoredGroup) :
  forall selected,
    (Z.of_nat (length selected) < max_highlights)%Z ->
    (Z.of_nat (length (select_loop max_highlights selected groups))
     <= max_highlights)%Z.
Proof.
  induction groups as [| group rest IH]; intros selected Hlen; simpl.
  - lia.
  - destruct (existsb (overlaps_with group) selected); [apply IH; exact Hlen |].
    destruct (max_highlights <=? Z.of_nat (length (selected ++ [group])))%Z
      eqn:E.
    + rewrite length_app in *. simpl in *. lia.
    + apply IH. apply Z.leb_gt in E. exact E.
Qed.

End Loop.

Lemma insert_by_score_Forall (P : ScoredGroup -> Prop) (g : ScoredGroup)
    (sorted : list ScoredGroup) :
  P g -> Forall P sorted -> Forall P (insert_by_score g sorted).
Proof.
  intros Hg Hs. induction Hs as [| h t Hh Ht IH]; simpl.
  - constructor; [exact Hg | constructor].
  - destruct (Qlt_bool (g_score g) (g_score h)); repeat constructor; auto.
Qed.

Lemma sort_by_score_Forall (P : ScoredGroup -> Prop) (gs : list ScoredGroup) :
  Forall P gs -> Forall P (sort_by_score gs).
Proof.
  intros Hgs. induction Hgs as [| g gs' Hg _ IH]; simpl.
  - constructor.
  - apply insert_by_score_Forall; assumption.
Qed.

(** ** select_highlights *)

Lemma make_highlight_recorded (g : ScoredGroup) :
  recorded g -> exists h, make_highlight g = Some h /\ copies g h.
Proof.
  intros (first & last & Hfirst & _). unfold make_highlight. rewrite Hfirst.
  eexists. split; [reflexivity |]. split; reflexivity.
Qed.

(** [select_highlights] always returns: no group it indexes is empty.  The
    highlights copy the times of the groups the loop selected. *)
Lemma select_highlights_returns (self : Selector) (scenes : list Scene)
    (transcription_result : option TranscriptionResult) (max_highlights : Z) :
  exists scored hs,
    select_highlights self scenes transcription_result max_highlights
      = Some hs /\
    Forall2 copies
      (select_loop max_highlights [] (sort_by_score scored)) hs.
Proof.
  unfold select_highlights.
  set (word_list := match transcription_result with
                    | Some r => words r
                    | None => []
                    end).
  destruct (scored_groups_recorded self scenes word_list)
    as (scored & -> & _ & Hrec).
  exists scored.
  apply (traverse_Forall2 make_highlight recorded copies).
  - exact make_highlight_recorded.
  - apply select_loop_Forall; [constructor |].
    apply sort_by_score_Forall. exact Hrec.
Qed.

Lemma Forall2_nth_error_r {A B : Type} (R : A -> B -> Prop) (xs : list A)
    (ys : list B) :
  Forall2 R xs ys ->
  forall i y, nth_error ys i = Some y ->
  exists x, nth_error xs i = Some x /\ R x y.
Proof.
  intros H. induction H as [| x y xs' ys' Hxy _ IH]; intros i b Hb.
  - destruct i; discriminate.
  - destruct i as [| i]; simpl in *.
    + injection Hb as <-. exists x. auto.
    + apply IH. exact Hb.
Qed.

(** C1: the highlights that [select_highlights] returns are pairwise
    non-overlapping: of two highlights at different positions, one ends
    no later than the other starts. *)
Theorem select_highlights_non_overlapping (self : Selector) (scenes : list Scene)
    (transcription_result : option TranscriptionResult) (max_highlights : Z) :
  exists hs,
    select_highlights self scenes transcription_result max_highlights
      = Some hs /\
    forall i j a b,
      i <> j ->
      nth_error hs i = Some a ->
      nth_error hs j = Some b ->
      hl_end_time a <= hl_start_time b \/ hl_end_time b <= hl_start_time a.
Proof.
  destruct (select_highlights_returns self scenes transcription_result
              max_highlights) as (scored & hs & Hsome & Hcopies).
  exists hs. split; [exact Hsome |].
  intros i j a b Hij Ha Hb.
  destruct (Forall2_nth_error_r _ _ _ Hcopies i a Ha) as (ga & Hga & Ha1 & Ha2).
  destruct (Forall2_nth_error_r _ _ _ Hcopies j b Hb) as (gb & Hgb & Hb1 & Hb2).
  rewrite Ha1, Ha2, Hb1, Hb2.
  apply (ForallOrdPairs_nth_error group_disjoint
           (select_loop max_highlights [] (sort_by_score scored))
           group_disjoint_sym
           (select_loop_disjoint max_highlights _ [] (FOP_nil _))
           i j ga gb Hij Hga Hgb).
Qed.

(** X14: with [max_highlights >= 1] the result has at most
    [max_highlights] highlights. *)
Lemma select_highlights_bounded (self : Selector) (scenes : list Scene)
    (transcription_result : option TranscriptionResult) (max_highlights : Z) :
  (1 <= max_highlights)%Z ->
  exists hs,
    select_highlights self scenes transcription_result max_highlights
      = Some hs /\
    (Z.of_nat (length hs) <= max_highlights)%Z.
Proof.
  intros Hmax.
  destruct (select_highlights_returns self scenes transcription_result
              max_highlights) as (scored & hs & Hsome & Hcopies).
  exists hs. split; [exact Hsome |].
  rewrite <- (Forall2_length Hcopies).
  apply select_loop_length. simpl. lia.
Qed.

(** C8 fails at [max_highlights = 0]: the bound is tested only after a
    group has been appended, so one scene of thirty seconds yields one
    highlight. *)
Theorem select_highlights_zero_max :
  exists hs,
    select_highlights Inputs.default_selector Inputs.one_scene None 0
      = Some hs /\
    length hs = 1%nat /\
    ~ (Z.of_nat (length hs) <= 0)%Z.
Proof.
  exists [mkHighlight 0 30 (4000 # 200000) EmptyString (mkScene 0 30 [])].
  split; [vm_compute; reflexivity |]. split; [reflexivity | simpl; lia].
Qed.

(** ** Natural breaks *)

Section NaturalBreak.

Variable self : Selector.
Variable scenes : list Scene.

(** If the inner loop, entered at scene [j] with [rest = scenes[j:]], is
    not stopped by the ceiling before its iteration [k], and the test of
    iteration [k] holds through a natural break, the group of the window
    is appended. *)
Lemma grow_natural_break (i : nat) (rest : list Scene) :
  forall k j current_group current_duration speech_frames total_frames scene,
    nth_error rest k = Some scene ->
    (forall k', (k' < k)%nat ->
       fold_left add_duration (firstn (S k') rest) current_duration
       <= max_duration self) ->
    min_duration self
    <= fold_left add_duration (firstn (S k) rest) current_duration ->
    natural_break scenes i (j + k) scene = true ->
    In (full_group scenes i (j + k))
       (grow self scenes i j rest current_group current_duration
          speech_frames total_frames).
Proof.
  induction rest as [| first rest' IH];
    intros k j cg cd sf tf scene Hk Hreach Hmin Hbreak.
  - destruct k; discriminate.
  - destruct k as [| k]; simpl grow.
    + simpl in Hk. injection Hk as ->. rewrite Nat.add_0_r in *.
      simpl in Hmin. unfold add_duration in Hmin.
      apply in_or_app. left.
      assert (E : emits self scenes i j scene (cg ++ [scene])
                    (cd + duration scene)
                    (sf + speech_duration scene * 30)
                    (tf + duration scene * 30) = true).
      { unfold emits. apply orb_true_iff. right.
        apply andb_true_iff. split; [| exact Hbreak].
        apply Qle_bool_iff. exact Hmin. }
      rewrite E. left. reflexivity.
    + apply in_or_app. right.
      assert (E : Qlt_bool (max_duration self) (cd + duration first) = false).
      { apply Qlt_bool_false. apply (Hreach 0%nat). lia. }
      rewrite E. replace (j + S k)%nat with (S j + k)%nat in * by lia.
      apply IH with (scene := scene).
      * exact Hk.
      * intros k' Hk'. apply (Hreach (S k')). lia.
      * exact Hmin.
      * exact Hbreak.
Qed.

End NaturalBreak.

(** C9, as the code has it: for a window [i..j] of at least two scenes
    ([i < j]) with a scene after it, which the inner loop reaches without
    passing [max_duration], whose accumulated duration is at least the
    minimum, and whose scene [j] has no speech segments while scene
    [j + 1] has some, the group of the window is recorded. *)
Theorem natural_break_emits (self : Selector) (scenes : list Scene)
    (i j : nat) (scene next : Scene) :
  (i < j)%nat ->
  nth_error scenes j = Some scene ->
  nth_error scenes (S j) = Some next ->
  (forall k, (i <= k < j)%nat ->
     window_duration scenes i k <= max_duration self) ->
  min_duration self <= window_duration scenes i j ->
  speech_segments scene = [] ->
  speech_segments next <> [] ->
  In (full_group scenes i j) (scene_groups self scenes).
Proof.
  intros Hij Hscene Hnext Hreach Hmin Hsilent Hspeech.
  assert (Hlen : (S j < length scenes)%nat).
  { apply nth_error_Some. rewrite Hnext. discriminate. }
  unfold scene_groups. apply in_flat_map. exists i. split.
  - apply in_seq. lia.
  - replace j with (i + (j - i))%nat at 1 by lia.
    apply grow_natural_break with (scene := scene).
    + rewrite nth_error_skipn. replace (i + (j - i))%nat with j by lia.
      exact Hscene.
    + intros k' Hk'. specialize (Hreach (i + k')%nat).
      unfold window_duration, slice in Hreach.
      replace (S (i + k') - i)%nat with (S k') in Hreach by lia.
      apply Hreach. lia.
    + unfold window_duration, slice in Hmin.
      replace (S j - i)%nat with (S (j - i)) in Hmin by lia. exact Hmin.
    + replace (i + (j - i))%nat with j by lia. unfold natural_break.
      rewrite Nat.add_1_r, Hnext, Hsilent.
      assert (E1 : (i <? j)%nat = true) by (apply Nat.ltb_lt; exact Hij).
      assert (E2 : (S j <? length scenes)%nat = true)
        by (apply Nat.ltb_lt; exact Hlen).
      rewrite E1, E2. simpl. destruct (speech_segments next);
        [contradiction | reflexivity].
Qed.

Lemma natural_break_emits_witness :
  In (full_group Inputs.two_silent_then_speech 0 1)
     (scene_groups Inputs.default_selector Inputs.two_silent_then_speech).
Proof.
  apply (natural_break_emits Inputs.default_selector
           Inputs.two_silent_then_speech 0 1
           (mkScene 20 60 []) (mkScene 60 70 [(60, 70)])).
  - lia.
  - reflexivity.
  - reflexivity.
  - intros k Hk. assert (k = 0%nat) as -> by lia. vm_compute. discriminate.
  - vm_compute. discriminate.
  - reflexivity.
  - discriminate.
Defined.

(** C9 as stated fails for a window of one scene: a silent scene of fifty
    seconds followed by a scene with speech reaches the minimum of thirty
    seconds at [j = i = 0], yet no group is recorded at all. *)
Lemma natural_break_single_scene :
  nth_error Inputs.silent_then_speech 0 = Some (mkScene 0 50 []) /\
  nth_error Inputs.silent_then_speech 1 = Some (mkScene 50 60 [(50, 60)]) /\
  min_duration Inputs.default_selector
  <= window_duration Inputs.silent_then_speech 0 0 /\
  scene_groups Inputs.default_selector Inputs.silent_then_speech = [] /\
  ~ In (full_group Inputs.silent_then_speech 0 0)
       (scene_groups Inputs.default_selector Inputs.silent_then_speech).
Proof.
  repeat split.
  - vm_compute. discriminate.
  - intros H. exact H.
Qed.

(** * Further properties *)

Import SceneOrder.

(** ** What merging keeps *)

Section MergeKeeps.

Variable min_duration : Q.

(** A property of scene sequences that survives the fusion of two
    neighbours. *)
Variable P : list Scene -> Prop.
Hypothesis P_fuse :
  forall l1 a b l2, P (l1 ++ a :: b :: l2) -> P (l1 ++ fuse a b :: l2).

Lemma merge_loop_keeps (rest : list Scene) :
  forall merged current,
    P (merged ++ current :: rest) ->
    let '(m, c) := merge_loop min_duration merged current rest in
    P (m ++ [c]).
Proof.
  induction rest as [| next rest' IH]; intros merged current HP; simpl.
  - exact HP.
  - destruct (Qlt_bool (duration current) min_duration).
    + apply (IH merged (fuse current next)). apply P_fuse. exact HP.
    + apply IH. rewrite <- app_assoc. exact HP.
Qed.

Lemma merge_tail_keeps (merged : list Scene) (current : Scene) :
  P (merged ++ [current]) -> P (merge_tail min_duration merged current).
Proof.
  intros HP. unfold merge_tail.
  destruct (Qle_bool min_duration (duration current)); [exact HP |].
  pose proof (pop_spec merged) as Hpop.
  destruct (pop merged) as [[init prev] |]; [| exact HP].
  subst merged. rewrite <- app_assoc in HP.
  apply (P_fuse init prev current []). exact HP.
Qed.

Lemma merge_short_scenes_keeps (scenes : list Scene) :
  P scenes -> P (merge_short_scenes scenes min_duration).
Proof.
  intros HP. destruct scenes as [| first rest]; [exact HP |].
  unfold merge_short_scenes.
  pose proof (merge_loop_keeps rest [] first HP) as Hloop.
  destruct (merge_loop min_duration [] first rest) as [m c].
  apply merge_tail_keeps. exact Hloop.
Qed.

End MergeKeeps.

(** X1: merging never adds a scene. *)
Theorem merge_short_scenes_length (scenes : list Scene) (min_duration : Q) :
  (length (merge_short_scenes scenes min_duration) <= length scenes)%nat.
Proof.
  apply (merge_short_scenes_keeps min_duration
           (fun l => (length l <= length scenes)%nat)); [| lia].
  intros l1 a b l2. rewrite !length_app. simpl. lia.
Qed.

(** X2: merging keeps every speech segment, in the order of the input. *)
Theorem merge_short_scenes_speech (scenes : list Scene) (min_duration : Q) :
  all_speech (merge_short_scenes scenes min_duration) = all_speech scenes.
Proof.
  apply (merge_short_scenes_keeps min_duration
           (fun l => all_speech l = all_speech scenes)); [| reflexivity].
  intros l1 a b l2 H. rewrite <- H. unfold all_speech.
  rewrite !flat_map_app. simpl. rewrite <- !app_assoc. reflexivity.
Qed.

Lemma linked_fuse (R : Q -> Q -> Prop) (l1 : list Scene) :
  forall a b l2,
    linked R (l1 ++ a :: b :: l2) -> linked R (l1 ++ fuse a b :: l2).
Proof.
  induction l1 as [| x l1' IH]; intros a b l2 H.
  - simpl in *. destruct H as [_ [Hb Hl2]]. split; [| exact Hl2].
    destruct l2; [exact I | exact Hb].
  - destruct l1' as [| y l1''].
    + specialize (IH a b l2). simpl in *. destruct H as [Hx Hrest].
      split; [exact Hx | apply IH; exact Hrest].
    + specialize (IH a b l2). simpl in *. destruct H as [Hx Hrest].
      split; [exact Hx | apply IH; exact Hrest].
Qed.

(** X3: merging a sequence without gaps gives a sequence without gaps. *)
Theorem merge_short_scenes_contiguous (scenes : list Scene) (min_duration : Q) :
  contiguous scenes ->
  contiguous (merge_short_scenes scenes min_duration).
Proof.
  apply merge_short_scenes_keeps. intros l1 a b l2. apply linked_fuse.
Qed.

Lemma merge_short_scenes_contiguous_witness :
  contiguous Inputs.two_short_scenes /\
  contiguous (merge_short_scenes Inputs.two_short_scenes 5).
Proof.
  assert (H : contiguous Inputs.two_short_scenes).
  { simpl. repeat split. }
  split; [exact H | exact (merge_short_scenes_contiguous _ 5 H)].
Defined.

Lemma consistent_linked (scenes : list Scene) :
  consistent scenes = true <->
  Forall (fun s => start_time s <= end_time s) scenes /\ linked Qle scenes.
Proof.
  induction scenes as [| s rest IH].
  - simpl. split; [intros _; split; [constructor | exact I] | reflexivity].
  - split.
    + intros H. apply consistent_cons in H. destruct H as (H1 & H2 & H3).
      apply IH in H3. destruct H3 as [H3 H4].
      split; [constructor; assumption |]. simpl. split; [| exact H4].
      destruct rest; [exact I | exact H2].
    + intros [Hall Hlink]. inversion Hall as [| ? ? H1 H3]; subst.
      simpl in Hlink. destruct Hlink as [H2 H4].
      apply consistent_intro; [exact H1 | | apply IH; split; assumption].
      destruct rest; [exact I | exact H2].
Qed.

Lemma linked_middle (R : Q -> Q -> Prop) (l1 : list Scene) :
  forall a b l2,
    linked R (l1 ++ a :: b :: l2) -> R (end_time a) (start_time b).
Proof.
  induction l1 as [| x l1' IH]; intros a b l2 H.
  - simpl in H. tauto.
  - apply (IH a b l2). simpl in H. destruct H as [_ H]. exact H.
Qed.

(** X4: merging an ordered, non-overlapping sequence without negative
    durations gives such a sequence again. *)
Theorem merge_short_scenes_consistent (scenes : list Scene) (min_duration : Q) :
  consistent scenes = true ->
  consistent (merge_short_scenes scenes min_duration) = true.
Proof.
  apply (merge_short_scenes_keeps min_duration
           (fun l => consistent l = true)).
  intros l1 a b l2 H. apply consistent_linked in H. destruct H as [Hall Hlink].
  apply consistent_linked. split; [| apply linked_fuse; exact Hlink].
  pose proof (linked_middle Qle l1 a b l2 Hlink) as Hab.
  apply Forall_app in Hall. destruct Hall as [H1 H2].
  inversion H2 as [| ? ? Ha H3]; subst. inversion H3 as [| ? ? Hb H4]; subst.
  apply Forall_app. split; [exact H1 |]. constructor; [| exact H4].
  simpl. lra.
Qed.

Lemma merge_short_scenes_consistent_witness :
  consistent Inputs.two_short_scenes = true /\
  consistent (merge_short_scenes Inputs.two_short_scenes 5) = true.
Proof.
  assert (H : consistent Inputs.two_short_scenes = true) by reflexivity.
  split; [exact H | exact (merge_short_scenes_consistent _ 5 H)].
Defined.

(** On a sequence without short scenes nothing is merged. *)
Lemma merge_short_scenes_all_long (scenes : list Scene) (min_duration : Q) :
  Forall (long_enough min_duration) scenes ->
  merge_short_scenes scenes min_duration = scenes.
Proof.
  intros Hall. destruct scenes as [| first rest]; [reflexivity |].
  unfold merge_short_scenes.
  pose proof (merge_loop_all_long min_duration rest [] first Hall) as Hloop.
  destruct (merge_loop min_duration [] first rest) as [m c].
  simpl in Hloop. unfold merge_tail.
  assert (Hc : long_enough min_duration c).
  { rewrite <- Hloop in Hall. apply Forall_app in Hall.
    destruct Hall as [_ Hc]. inversion Hc; assumption. }
  apply Qle_bool_iff in Hc. rewrite Hc. exact Hloop.
Qed.

(** X5: on a consistent sequence merging twice is merging once. *)
Theorem merge_short_scenes_idempotent (scenes : list Scene) (min_duration : Q) :
  consistent scenes = true ->
  merge_short_scenes (merge_short_scenes scenes min_duration) min_duration =
  merge_short_scenes scenes min_duration.
Proof.
  intros Hcons. destruct scenes as [| first rest]; [reflexivity |].
  assert (Hshape :
    Forall (long_enough min_duration)
      (merge_short_scenes (first :: rest) min_duration) \/
    exists s, merge_short_scenes (first :: rest) min_duration = [s]).
  { unfold merge_short_scenes.
    pose proof (merge_loop_inv min_duration rest [] first
                  (Forall_nil _) (Forall_nil _) Hcons) as Hinv.
    destruct (merge_loop min_duration [] first rest) as [m c].
    destruct Hinv as (I1 & I2 & I3 & I4).
    destruct (merge_tail_inv min_duration first rest m c I1 I2 I3 I4)
      as (_ & _ & [Hl | (s & Hs & _)]); [left; exact Hl | right].
    exists s. exact Hs. }
  destruct Hshape as [Hl | (s & Hs)].
  - apply merge_short_scenes_all_long. exact Hl.
  - rewrite Hs. unfold merge_short_scenes, merge_loop, merge_tail.
    destruct (Qle_bool min_duration (duration s)); reflexivity.
Qed.

Lemma merge_short_scenes_idempotent_witness :
  consistent Inputs.two_short_scenes = true /\
  merge_short_scenes (merge_short_scenes Inputs.two_short_scenes 5) 5 =
  merge_short_scenes Inputs.two_short_scenes 5.
Proof.
  assert (H : consistent Inputs.two_short_scenes = true) by reflexivity.
  split; [exact H | exact (merge_short_scenes_idempotent _ 5 H)].
Defined.

(** ** Scores *)

(** The bounds of the keyword score. *)
Lemma score_text_with_keywords_bounds_aux (text : string) :
  0 <= _score_text_with_keywords text <= 1 /\
  (1 <= sentence_count text)%nat.
Proof.
  split; [| apply sentence_count_pos].
  unfold _score_text_with_keywords. cbv zeta.
  destruct ((_ <? 5)%nat || _); [lra |].
  split; [| apply py_min_le_r]. apply py_min_ge; [| lra].
  pose proof (keyword_score_nonneg (PyStr.lower text)) as Hk.
  pose proof (quality_score_nonneg (PyStr.lower text)
                (length (PyStr.split (PyStr.lower text)))) as Hq.
  match goal with
  | |- 0 <= _ + _ + py_min ?d 1 * _ =>
      assert (Hd : 0 <= py_min d 1)
  end.
  { apply py_min_ge; [| lra]. apply Qdiv_nonneg; [| lra].
    apply Qdiv_nonneg; apply of_nat_nonneg. }
  lra.
Qed.

(** X6: the keyword score of every text lies between 0 and 1; the test on
    the number of sentences never rejects a text. *)
Theorem score_text_with_keywords_bounds (text : string) :
  0 <= _score_text_with_keywords text <= 1 /\
  (1 <= sentence_count text)%nat.
Proof.
  apply score_text_with_keywords_bounds_aux.
Qed.

(** ** The text of a time range *)

Import TextOfWords.

Lemma string_app_nil_r (s : string) : (s ++ EmptyString)%string = s.
Proof. induction s as [| c s IH]; simpl; [reflexivity | rewrite IH; reflexivity]. Qed.

Lemma string_app_assoc (a b c : string) :
  ((a ++ b) ++ c)%string = (a ++ (b ++ c))%string.
Proof. induction a as [| x a IH]; simpl; [reflexivity | rewrite IH; reflexivity]. Qed.

Lemma list_ascii_of_string_app (a b : string) :
  list_ascii_of_string (a ++ b) =
  list_ascii_of_string a ++ list_ascii_of_string b.
Proof. induction a as [| x a IH]; simpl; [reflexivity | rewrite IH; reflexivity]. Qed.

(** The selected word texts, each followed by a space, as the loop of
    [_get_text_for_timerange] appends them. *)
Lemma get_text_loop (start_time end_time : Q) (ws : list Word) :
  forall text,
    fold_left
      (fun text timestamp =>
         if Qle_bool start_time (w_start timestamp) &&
            Qle_bool (w_end timestamp) end_time
         then (text ++ (word_text timestamp ++ " "))%string
         else text)
      ws text =
    (text ++
     fold_right (fun t rest => t ++ " " ++ rest)%string EmptyString
       (words_in_timerange ws start_time end_time))%string.
Proof.
  unfold words_in_timerange, in_timerange.
  induction ws as [| w ws' IH]; intros text; simpl.
  - rewrite string_app_nil_r. reflexivity.
  - rewrite IH.
    destruct (Qle_bool start_time (w_start w) && Qle_bool (w_end w) end_time);
      simpl; [| reflexivity].
    rewrite !string_app_assoc. reflexivity.
Qed.

Lemma lstrip_list_app (cs rest : list ascii) :
  cs <> [] -> PyStr.lstrip_list cs = cs ->
  PyStr.lstrip_list (cs ++ rest) = cs ++ rest.
Proof.
  intros Hne H. destruct cs as [| c cs']; [contradiction |].
  simpl in *. destruct (PyStr.is_space c); [| reflexivity].
  exfalso. assert (Hlen : forall l, (length (PyStr.lstrip_list l) <= length l)%nat).
  { induction l as [| x l IHl]; simpl; [lia |].
    destruct (PyStr.is_space x); simpl; lia. }
  specialize (Hlen cs'). rewrite H in Hlen. simpl in Hlen. lia.
Qed.

Lemma solid_firm (t : string) :
  solid t = true -> firm (list_ascii_of_string t).
Proof.
  unfold solid, firm. intros H. apply andb_true_iff in H.
  destruct H as [Hne Hall].
  assert (Hstay : forall cs,
            forallb (fun c => negb (PyStr.is_space c)) cs = true ->
            PyStr.lstrip_list cs = cs).
  { intros cs Hcs. destruct cs as [| c cs']; [reflexivity |].
    simpl in *. apply andb_true_iff in Hcs. destruct Hcs as [Hc _].
    destruct (PyStr.is_space c); [discriminate | reflexivity]. }
  repeat split.
  - destruct t; [discriminate | discriminate].
  - apply Hstay. exact Hall.
  - apply Hstay. rewrite forallb_forall in *. intros c Hc.
    apply Hall. apply in_rev. exact Hc.
Qed.

Lemma firm_join (a b : list ascii) (sp : ascii) :
  firm a -> firm b -> firm (a ++ sp :: b).
Proof.
  intros (Ha1 & Ha2 & Ha3) (Hb1 & Hb2 & Hb3). repeat split.
  - destruct a; discriminate.
  - apply lstrip_list_app; assumption.
  - rewrite rev_app_distr. simpl. rewrite <- app_assoc.
    apply lstrip_list_app; [| exact Hb3].
    intros Hnil. apply Hb1. apply (f_equal (@rev ascii)) in Hnil.
    rewrite rev_involutive in Hnil. exact Hnil.
Qed.

Lemma firm_concat (ts : list string) :
  ts <> [] ->
  Forall (fun t => solid t = true) ts ->
  firm (list_ascii_of_string (String.concat " "%string ts)).
Proof.
  intros Hne Hall. induction Hall as [| t ts' Ht Hts IH]; [contradiction |].
  destruct ts' as [| t' ts''].
  - simpl. apply solid_firm. exact Ht.
  - change (String.concat " "%string (t :: t' :: ts''))
      with (t ++ " " ++ String.concat " "%string (t' :: ts''))%string.
    rewrite list_ascii_of_string_app. simpl.
    apply firm_join; [apply solid_firm; exact Ht | apply IH; discriminate].
Qed.

Lemma spaced_concat (ts : list string) :
  ts <> [] ->
  fold_right (fun t rest => t ++ " " ++ rest)%string EmptyString ts =
  (String.concat " "%string ts ++ " ")%string.
Proof.
  intros Hne. induction ts as [| t ts' IH]; [contradiction |].
  destruct ts' as [| t' ts''].
  - simpl. reflexivity.
  - change (String.concat " "%string (t :: t' :: ts''))
      with (t ++ " " ++ String.concat " "%string (t' :: ts''))%string.
    cbn [fold_right] in *. rewrite IH by discriminate.
    rewrite !string_app_assoc. reflexivity.
Qed.

Lemma strip_firm_space (s : string) :
  firm (list_ascii_of_string s) -> PyStr.strip (s ++ " ")%string = s.
Proof.
  intros (Hne & H1 & H2). unfold PyStr.strip.
  rewrite list_ascii_of_string_app. simpl.
  rewrite lstrip_list_app by assumption.
  rewrite rev_app_distr. simpl. rewrite H2, rev_involutive.
  apply string_of_list_ascii_of_string.
Qed.

(** X7: when the texts of the words that lie inside the time range are
    non-empty and free of white space, [_get_text_for_timerange] returns
    exactly these texts, in order, joined by single spaces. *)
Theorem get_text_for_timerange_joined (word_timestamps : list Word)
    (start_time end_time : Q) :
  Forall (fun t => solid t = true)
    (words_in_timerange word_timestamps start_time end_time) ->
  _get_text_for_timerange word_timestamps start_time end_time =
  String.concat " "%string (words_in_timerange word_timestamps start_time end_time).
Proof.
  intros Hsolid. unfold _get_text_for_timerange.
  rewrite get_text_loop. simpl append.
  destruct (words_in_timerange word_timestamps start_time end_time)
    as [| t ts] eqn:E; [reflexivity |].
  rewrite spaced_concat by discriminate.
  apply strip_firm_space. apply firm_concat; [discriminate | exact Hsolid].
Qed.

Lemma get_text_for_timerange_joined_witness :
  Forall (fun t => solid t = true)
    (words_in_timerange Samples.three_words 0 10) /\
  _get_text_for_timerange Samples.three_words 0 10 = "hello big"%string.
Proof.
  assert (H : Forall (fun t => solid t = true)
                (words_in_timerange Samples.three_words 0 10)).
  { repeat constructor. }
  split; [exact H |].
  exact (get_text_for_timerange_joined Samples.three_words 0 10 H).
Defined.

(** ** Which windows become candidates *)

Lemma py_min_le_l (a b : Q) : py_min a b <= a.
Proof.
  unfold py_min. destruct (Qlt_bool b a) eqn:E; [| lra].
  apply Qlt_bool_true in E. lra.
Qed.

Section Windows.

Variable self : Selector.
Variable scenes : list Scene.

(** What the test of iteration [j] means for the accumulated duration. *)
Lemma emits_duration (i j : nat) (scene : Scene) (cg : list Scene)
    (cd sf tf : Q) :
  emits self scenes i j scene cg cd sf tf = true ->
  min_duration self <= cd /\
  (cd <= max_duration self \/ natural_break scenes i j scene = true).
Proof.
  unfold emits. cbv zeta. intros H. apply orb_true_iff in H.
  destruct H as [H | H]; apply andb_true_iff in H; destruct H as [H1 H2];
    apply Qle_bool_iff in H1; (split; [exact H1 |]).
  - left. apply Qle_bool_iff in H2.
    eapply Qle_trans; [exact H2 | apply py_min_le_l].
  - right. exact H2.
Qed.

Lemma grow_In_window (i : nat) (rest : list Scene) :
  forall j cg cd sf tf g,
    In g (grow self scenes i j rest cg cd sf tf) ->
    exists k scene,
      nth_error rest k = Some scene /\
      g = full_group scenes i (j + k) /\
      min_duration self <= fold_left add_duration (firstn (S k) rest) cd /\
      (forall k', (k' < k)%nat ->
         fold_left add_duration (firstn (S k') rest) cd <= max_duration self) /\
      (fold_left add_duration (firstn (S k) rest) cd <= max_duration self \/
       natural_break scenes i (j + k) scene = true).
Proof.
  induction rest as [| first rest' IH]; intros j cg cd sf tf g Hin;
    simpl in Hin.
  - contradiction.
  - apply in_app_or in Hin. destruct Hin as [Hin | Hin].
    + destruct (emits _ _ _ _ _ _ _ _) eqn:E in Hin; [| contradiction].
      destruct Hin as [<- | []]. apply emits_duration in E.
      destruct E as [Hmin Hmax]. exists 0%nat, first.
      rewrite Nat.add_0_r. simpl. unfold add_duration at 1 3.
      repeat split; auto. intros k' Hk'. lia.
    + destruct (Qlt_bool _ _) eqn:E in Hin; [contradiction |].
      apply Qlt_bool_false in E. apply IH in Hin.
      destruct Hin as (k & scene & Hk & -> & Hmin & Hreach & Hmax).
      exists (S k), scene. replace (j + S k)%nat with (S j + k)%nat by lia.
      repeat split; auto.
      intros k' Hk'. destruct k' as [| k'']; [exact E |].
      apply Hreach. lia.
Qed.

Lemma scene_groups_window (g : list Scene) :
  In g (scene_groups self scenes) ->
  exists i j scene,
    (i <= j)%nat /\ nth_error scenes j = Some scene /\
    g = full_group scenes i j /\
    min_duration self <= window_duration scenes i j /\
    (forall k, (i <= k < j)%nat ->
       window_duration scenes i k <= max_duration self) /\
    (window_duration scenes i j <= max_duration self \/
     natural_break scenes i j scene = true).
Proof.
  unfold scene_groups. intros Hin. apply in_flat_map in Hin.
  destruct Hin as (i & _ & Hin). apply grow_In_window in Hin.
  destruct Hin as (k & scene & Hk & -> & Hmin & Hreach & Hmax).
  rewrite nth_error_skipn in Hk.
  exists i, (i + k)%nat, scene. unfold window_duration, slice.
  replace (S (i + k) - i)%nat with (S k) by lia.
  repeat split; auto; try lia.
  intros k' Hk'. replace (S k' - i)%nat with (S (k' - i)) by lia.
  apply Hreach. lia.
Qed.

End Windows.

(** X8: every candidate group comes from a window [i..j] whose
    accumulated duration is at least [min_duration], reached without any
    shorter window from [i] exceeding [max_duration]; its own duration
    exceeds [max_duration] only when it ends at a natural break. *)
Theorem candidate_window (self : Selector) (scenes : list Scene)
    (g : list Scene) :
  In g (scene_groups self scenes) ->
  exists i j scene,
    (i <= j)%nat /\ nth_error scenes j = Some scene /\
    g = slice scenes (i - 1) (Nat.min (length scenes) (j + 2)) /\
    min_duration self <= window_duration scenes i j /\
    (forall k, (i <= k < j)%nat ->
       window_duration scenes i k <= max_duration self) /\
    (window_duration scenes i j <= max_duration self \/
     natural_break scenes i j scene = true).
Proof.
  apply scene_groups_window.
Qed.

Lemma candidate_window_witness :
  exists i j scene,
    (i <= j)%nat /\
    nth_error Inputs.two_silent_then_speech j = Some scene /\
    Inputs.two_silent_then_speech =
      slice Inputs.two_silent_then_speech (i - 1)
        (Nat.min (length Inputs.two_silent_then_speech) (j + 2)) /\
    min_duration Inputs.default_selector
    <= window_duration Inputs.two_silent_then_speech i j /\
    (forall k, (i <= k < j)%nat ->
       window_duration Inputs.two_silent_then_speech i k
       <= max_duration Inputs.default_selector) /\
    (window_duration Inputs.two_silent_then_speech i j
     <= max_duration Inputs.default_selector \/
     natural_break Inputs.two_silent_then_speech i j scene = true).
Proof.
  apply (candidate_window Inputs.default_selector
           Inputs.two_silent_then_speech Inputs.two_silent_then_speech).
  vm_compute. left. reflexivity.
Defined.

(** ** Sums of durations *)

Lemma fold_add_duration_acc (l : list Scene) :
  forall acc,
    fold_left add_duration l acc == acc + fold_left add_duration l 0.
Proof.
  induction l as [| s l' IH]; intros acc; simpl.
  - lra.
  - rewrite (IH (add_duration acc s)), (IH (add_duration 0 s)).
    unfold add_duration at 1 3. lra.
Qed.

Lemma fold_add_duration_nonneg (l : list Scene) :
  Forall (fun s => 0 <= duration s) l -> 0 <= fold_left add_duration l 0.
Proof.
  intros H. induction H as [| s l' Hs _ IH]; simpl; [lra |].
  rewrite fold_add_duration_acc. unfold add_duration at 1. lra.
Qed.

Lemma fold_add_duration_app (l1 l2 : list Scene) :
  fold_left add_duration (l1 ++ l2) 0 ==
  fold_left add_duration l1 0 + fold_left add_duration l2 0.
Proof.
  rewrite fold_left_app. apply fold_add_duration_acc.
Qed.

Lemma fold_add_duration_firstn (n : nat) (l : list Scene) :
  Forall (fun s => 0 <= duration s) l ->
  fold_left add_duration (firstn n l) 0 <= fold_left add_duration l 0.
Proof.
  intros H. rewrite <- (firstn_skipn n l) at 2.
  rewrite fold_add_duration_app.
  pose proof (fold_add_duration_nonneg (skipn n l)) as Hs.
  assert (Hall : Forall (fun s => 0 <= duration s) (skipn n l)).
  { rewrite <- (firstn_skipn n l) in H. apply Forall_app in H. tauto. }
  specialize (Hs Hall). lra.
Qed.

Lemma fold_add_duration_skipn (n : nat) (l : list Scene) :
  Forall (fun s => 0 <= duration s) l ->
  fold_left add_duration (skipn n l) 0 <= fold_left add_duration l 0.
Proof.
  intros H. rewrite <- (firstn_skipn n l) at 2.
  rewrite fold_add_duration_app.
  pose proof (fold_add_duration_nonneg (firstn n l)) as Hs.
  assert (Hall : Forall (fun s => 0 <= duration s) (firstn n l)).
  { rewrite <- (firstn_skipn n l) in H. apply Forall_app in H. tauto. }
  specialize (Hs Hall). lra.
Qed.

Lemma window_duration_le_total (scenes : list Scene) (i j : nat) :
  Forall (fun s => 0 <= duration s) scenes ->
  window_duration scenes i j <= fold_left add_duration scenes 0.
Proof.
  intros H. unfold window_duration, slice.
  eapply Qle_trans; [| apply (fold_add_duration_skipn i); exact H].
  apply fold_add_duration_firstn.
  rewrite <- (firstn_skipn i scenes) in H. apply Forall_app in H. tauto.
Qed.

(** X9: when no scene has a negative duration and all scenes together are
    shorter than [min_duration], there is no candidate and
    [select_highlights] returns the empty list. *)
Theorem select_highlights_short_video (self : Selector) (scenes : list Scene)
    (transcription_result : option TranscriptionResult) (max_highlights : Z) :
  Forall (fun s => 0 <= duration s) scenes ->
  fold_left add_duration scenes 0 < min_duration self ->
  scene_groups self scenes = [] /\
  select_highlights self scenes transcription_result max_highlights = Some [].
Proof.
  intros Hnonneg Hshort.
  assert (Hnone : scene_groups self scenes = []).
  { destruct (scene_groups self scenes) as [| g gs] eqn:E; [reflexivity |].
    exfalso.
    assert (Hin : In g (scene_groups self scenes)) by (rewrite E; left; reflexivity).
    apply scene_groups_window in Hin.
    destruct Hin as (i & j & scene & _ & _ & _ & Hmin & _).
    pose proof (window_duration_le_total scenes i j Hnonneg). lra. }
  split; [exact Hnone |].
  unfold select_highlights. rewrite Hnone. reflexivity.
Qed.

Lemma select_highlights_short_video_witness :
  select_highlights Inputs.default_selector Inputs.two_short_scenes None 5
  = Some [].
Proof.
  apply (select_highlights_short_video Inputs.default_selector
           Inputs.two_short_scenes None 5).
  - repeat constructor; vm_compute; discriminate.
  - vm_compute. reflexivity.
Defined.

(** ** Where highlights come from *)

Import Provenance.

Lemma slice_In {A : Type} (xs : list A) (a b : nat) (x : A) :
  In x (slice xs a b) -> In x xs.
Proof.
  unfold slice. intros H.
  rewrite <- (firstn_skipn a xs). apply in_or_app. right.
  rewrite <- (firstn_skipn (b - a) (skipn a xs)). apply in_or_app. left.
  exact H.
Qed.

Lemma hd_error_In {A : Type} (xs : list A) (x : A) :
  hd_error xs = Some x -> In x xs.
Proof. destruct xs; simpl; [discriminate | intros H; injection H as ->; auto]. Qed.

Lemma last_error_In {A : Type} (xs : list A) (x : A) :
  last_error xs = Some x -> In x xs.
Proof.
  induction xs as [| y ys IH]; [discriminate |].
  destruct ys as [| z zs].
  - simpl. intros H. injection H as ->. auto.
  - rewrite last_error_cons. intros H. right. apply IH. exact H.
Qed.

Lemma py_max_ge_l (a b : Q) : a <= py_max a b.
Proof.
  unfold py_max. destruct (Qlt_bool a b) eqn:E; [| lra].
  apply Qlt_bool_true in E. lra.
Qed.

(** The scored groups are anchored in the input. *)
Lemma scored_groups_anchored (self : Selector) (scenes : list Scene)
    (word_list : list Word) :
  exists scored,
    traverse (score_group word_list) (scene_groups self scenes) = Some scored /\
    Forall (fun g => recorded g /\ anchored scenes g) scored.
Proof.
  destruct (scored_groups_recorded self scenes word_list)
    as (scored & Ht & Hmap & Hrec).
  exists scored. split; [exact Ht |].
  apply Forall_forall. intros g Hg. rewrite Forall_forall in Hrec.
  pose proof (Hrec g Hg) as Hr. split; [exact Hr |].
  destruct Hr as (first & last & Hfirst & Hlast & Hend & Hstart).
  assert (Hin : In (g_scenes g) (scene_groups self scenes)).
  { rewrite <- Hmap. apply in_map. exact Hg. }
  apply scene_groups_In in Hin. destruct Hin as (i & j & _ & Hgs).
  exists first, last. repeat split; auto.
  - apply hd_error_In in Hfirst. rewrite Hgs in Hfirst.
    eapply slice_In. exact Hfirst.
  - apply last_error_In in Hlast. rewrite Hgs in Hlast.
    eapply slice_In. exact Hlast.
Qed.

(** [select_highlights] returns the highlights made of the groups that the
    selection loop takes from the sorted scored groups. *)
Lemma select_highlights_made (self : Selector) (scenes : list Scene)
    (transcription_result : option TranscriptionResult) (max_highlights : Z) :
  exists scored hs,
    traverse
      (score_group match transcription_result with
                   | Some r => words r
                   | None => []
                   end)
      (scene_groups self scenes) = Some scored /\
    Forall (fun g => recorded g /\ anchored scenes g) scored /\
    select_highlights self scenes transcription_result max_highlights
      = Some hs /\
    Forall2 made_of (select_loop max_highlights [] (sort_by_score scored)) hs.
Proof.
  unfold select_highlights.
  set (word_list := match transcription_result with
                    | Some r => words r
                    | None => []
                    end).
  destruct (scored_groups_anchored self scenes word_list)
    as (scored & Ht & Hall).
  exists scored. rewrite Ht.
  destruct (traverse_Forall2 make_highlight
              (fun g => recorded g /\ anchored scenes g) made_of
              (select_loop max_highlights [] (sort_by_score scored)))
    as (hs & Hhs & Hmade).
  - intros g [(first & last & Hfirst & _) _]. unfold made_of, make_highlight.
    rewrite Hfirst. eexists. split; reflexivity.
  - apply select_loop_Forall; [constructor |].
    apply sort_by_score_Forall. exact Hall.
  - exists hs. auto.
Qed.

Lemma Forall2_Forall_r {A B : Type} (R : A -> B -> Prop) (P : A -> Prop)
    (T : B -> Prop) (xs : list A) (ys : list B) :
  (forall x y, P x -> R x y -> T y) ->
  Forall2 R xs ys -> Forall P xs -> Forall T ys.
Proof.
  intros HT H. induction H as [| x y xs' ys' Hxy _ IH]; intros HP.
  - constructor.
  - inversion HP; subst. constructor; eauto.
Qed.

(** X10: every highlight starts at or after 0, namely at
    [max(0, start - 5)] of its anchor scene, ends where a scene of the
    input ends, and has a scene of the input as anchor. *)
Theorem select_highlights_from_scenes (self : Selector) (scenes : list Scene)
    (transcription_result : option TranscriptionResult) (max_highlights : Z) :
  exists hs,
    select_highlights self scenes transcription_result max_highlights
      = Some hs /\
    Forall
      (fun h =>
         0 <= hl_start_time h /\
         In (hl_scene h) scenes /\
         hl_start_time h = py_max 0 (start_time (hl_scene h) - context_window) /\
         exists last, In last scenes /\ hl_end_time h = end_time last)
      hs.
Proof.
  destruct (select_highlights_made self scenes transcription_result
              max_highlights) as (scored & hs & _ & Hall & Hsome & Hmade).
  exists hs. split; [exact Hsome |].
  apply (Forall2_Forall_r made_of (anchored scenes) (from_scenes scenes)
           (select_loop max_highlights [] (sort_by_score scored))).
  - intros g h (first & last & Hfirst & Hlast & Hf & Hl & Hend & Hstart) Hm.
    unfold made_of, make_highlight in Hm. rewrite Hfirst in Hm.
    injection Hm as <-. unfold from_scenes. simpl.
    repeat split; auto.
    + rewrite Hstart. apply py_max_ge_l.
    + exists last. auto.
  - exact Hmade.
  - apply select_loop_Forall; [constructor |].
    apply sort_by_score_Forall.
    eapply Forall_impl; [| exact Hall]. intros g [_ Hg]. exact Hg.
Qed.

(** ** The order of selection *)

Section LoopKeeps.

Variable max_highlights : Z.

(** A property of lists of groups that survives the removal of an
    element. *)
Variable P : list ScoredGroup -> Prop.
Hypothesis P_remove : forall l1 x l2, P (l1 ++ x :: l2) -> P (l1 ++ l2).

Lemma P_prefix (l2 : list ScoredGroup) :
  forall l1, P (l1 ++ l2) -> P l1.
Proof.
  induction l2 as [| x l2' IH]; intros l1 H.
  - rewrite app_nil_r in H. exact H.
  - apply IH. apply (P_remove l1 x l2'). exact H.
Qed.

Lemma select_loop_keeps (groups : list ScoredGroup) :
  forall selected,
    P (selected ++ groups) ->
    P (select_loop max_highlights selected groups).
Proof.
  induction groups as [| group rest IH]; intros selected HP; simpl.
  - rewrite app_nil_r in HP. exact HP.
  - destruct (existsb (overlaps_with group) selected).
    + apply IH. apply (P_remove selected group rest). exact HP.
    + assert (HP' : P ((selected ++ [group]) ++ rest))
        by (rewrite <- app_assoc; exact HP).
      destruct (max_highlights <=? Z.of_nat (length (selected ++ [group])))%Z.
      * apply (P_prefix rest). exact HP'.
      * apply IH. exact HP'.
Qed.

End LoopKeeps.

Lemma descending_remove (l1 : list Q) :
  forall x l2, descending (l1 ++ x :: l2) -> descending (l1 ++ l2).
Proof.
  induction l1 as [| q l1' IH]; intros x l2 H; simpl in *.
  - tauto.
  - destruct H as [Hall Hrest]. split; [| eapply IH; exact Hrest].
    apply Forall_app in Hall. destruct Hall as [H1 H2].
    inversion H2; subst. apply Forall_app. split; assumption.
Qed.

Lemma insert_by_score_In (g x : ScoredGroup) (sorted : list ScoredGroup) :
  In x (insert_by_score g sorted) <-> x = g \/ In x sorted.
Proof.
  induction sorted as [| h t IH]; simpl.
  - intuition.
  - destruct (Qlt_bool (g_score g) (g_score h)); simpl; [rewrite IH |];
      intuition.
Qed.

Lemma sort_by_score_In (x : ScoredGroup) (gs : list ScoredGroup) :
  In x (sort_by_score gs) <-> In x gs.
Proof.
  induction gs as [| g gs' IH]; simpl; [tauto |].
  rewrite insert_by_score_In, IH. intuition.
Qed.

Lemma insert_by_score_descending (g : ScoredGroup) (sorted : list ScoredGroup) :
  descending (map g_score sorted) ->
  descending (map g_score (insert_by_score g sorted)).
Proof.
  induction sorted as [| h t IH]; simpl; intros H.
  - split; constructor.
  - destruct H as [Hall Hrest].
    destruct (Qlt_bool (g_score g) (g_score h)) eqn:E; simpl.
    + apply Qlt_bool_true in E. split; [| apply IH; exact Hrest].
      apply Forall_forall. intros q Hq. apply in_map_iff in Hq.
      destruct Hq as (x & <- & Hx). apply insert_by_score_In in Hx.
      destruct Hx as [-> | Hx]; [lra |].
      rewrite Forall_forall in Hall. apply Hall. apply in_map. exact Hx.
    + apply Qlt_bool_false in E. split; [| split; assumption].
      constructor; [exact E |].
      eapply Forall_impl; [| exact Hall]. simpl. intros q Hq. lra.
Qed.

Lemma sort_by_score_descending (gs : list ScoredGroup) :
  descending (map g_score (sort_by_score gs)).
Proof.
  induction gs as [| g gs' IH]; simpl; [exact I |].
  apply insert_by_score_descending. exact IH.
Qed.

Lemma made_of_same (g : ScoredGroup) (h : Highlight) :
  made_of g h -> same_as g h.
Proof.
  unfold made_of, make_highlight, same_as.
  destruct (hd_error (g_scenes g)); [| discriminate].
  intros H. injection H as <-. simpl. auto.
Qed.

Lemma made_of_scores (gs : list ScoredGroup) (hs : list Highlight) :
  Forall2 made_of gs hs -> map hl_score hs = map g_score gs.
Proof.
  intros H. induction H as [| g h gs' hs' Hgh _ IH]; simpl; [reflexivity |].
  apply made_of_same in Hgh. destruct Hgh as (_ & _ & ->). rewrite IH.
  reflexivity.
Qed.

(** X11: the highlights are returned in the order of their scores, the
    best first. *)
Theorem select_highlights_descending (self : Selector) (scenes : list Scene)
    (transcription_result : option TranscriptionResult) (max_highlights : Z) :
  exists hs,
    select_highlights self scenes transcription_result max_highlights
      = Some hs /\
    descending (map hl_score hs).
Proof.
  destruct (select_highlights_made self scenes transcription_result
              max_highlights) as (scored & hs & _ & _ & Hsome & Hmade).
  exists hs. split; [exact Hsome |].
  rewrite (made_of_scores _ _ Hmade).
  apply (select_loop_keeps max_highlights
           (fun l => descending (map g_score l))).
  - intros l1 x l2. rewrite !map_app. simpl. apply descending_remove.
  - simpl. apply sort_by_score_descending.
Qed.

Lemma select_loop_prefix (max_highlights : Z) (groups : list ScoredGroup) :
  forall selected,
    exists tail,
      select_loop max_highlights selected groups = selected ++ tail.
Proof.
  induction groups as [| group rest IH]; intros selected; simpl.
  - exists []. rewrite app_nil_r. reflexivity.
  - destruct (existsb (overlaps_with group) selected); [apply IH |].
    destruct (max_highlights <=? Z.of_nat (length (selected ++ [group])))%Z.
    + exists [group]. reflexivity.
    + destruct (IH (selected ++ [group])) as [tail ->].
      exists (group :: tail). rewrite <- app_assoc. reflexivity.
Qed.

Lemma traverse_In {A B : Type} (f : A -> option B) (xs : list A) :
  forall ys x y,
    traverse f xs = Some ys -> In x xs -> f x = Some y -> In y ys.
Proof.
  intros ys x y Ht. apply traverse_inv in Ht.
  induction Ht as [| a b xs' ys' Hab _ IH]; intros Hin Hf.
  - contradiction.
  - destruct Hin as [-> | Hin]; [left; congruence | right; auto].
Qed.

(** The loop takes the first group it is offered. *)
Lemma select_loop_first (max_highlights : Z) (g : ScoredGroup)
    (rest : list ScoredGroup) :
  exists tail, select_loop max_highlights [] (g :: rest) = g :: tail.
Proof.
  simpl. destruct (max_highlights <=? 1)%Z; [exists []; reflexivity |].
  apply (select_loop_prefix max_highlights rest [g]).
Qed.

(** X12: when there is a candidate, a highlight is returned, and the first
    highlight has the greatest score of all candidates; without candidates
    the result is empty. *)
Theorem select_highlights_best_first (self : Selector) (scenes : list Scene)
    (transcription_result : option TranscriptionResult) (max_highlights : Z) :
  exists hs,
    select_highlights self scenes transcription_result max_highlights
      = Some hs /\
    (hs = [] <-> scene_groups self scenes = []) /\
    forall h rest group g,
      hs = h :: rest ->
      In group (scene_groups self scenes) ->
      score_group
        match transcription_result with
        | Some r => words r
        | None => []
        end group = Some g ->
      g_score g <= hl_score h.
Proof.
  destruct (select_highlights_made self scenes transcription_result
              max_highlights) as (scored & hs & Ht & _ & Hsome & Hmade).
  exists hs. split; [exact Hsome |].
  pose proof (sort_by_score_descending scored) as Hdesc.
  assert (Hmem : forall x, In x (sort_by_score scored) <-> In x scored)
    by (intros x; apply sort_by_score_In).
  destruct (sort_by_score scored) as [| top sorted'] eqn:Esort.
  - assert (Hnil : scored = []).
    { destruct scored as [| x xs]; [reflexivity |].
      exfalso. apply (Hmem x). left. reflexivity. }
    subst scored. simpl in Hmade. inversion Hmade; subst.
    assert (Hgroups : scene_groups self scenes = []).
    { apply traverse_inv in Ht. inversion Ht. reflexivity. }
    split; [tauto |]. intros h rest group g Hhs. discriminate.
  - destruct (select_loop_first max_highlights top sorted') as [tail Htail].
    rewrite Htail in Hmade. inversion Hmade as [| ? h ? hs' Hh _]; subst.
    split.
    + split; [discriminate |]. intros Hnil. rewrite Hnil in Ht.
      simpl in Ht. injection Ht as <-. discriminate.
    + intros h0 rest group g Hhs Hin Hscore. injection Hhs as <- <-.
      apply made_of_same in Hh. destruct Hh as (_ & _ & ->).
      assert (Hg : In g (top :: sorted')).
      { apply Hmem. eapply traverse_In; eassumption. }
      simpl in Hdesc. destruct Hdesc as [Hall _].
      destruct Hg as [<- | Hg]; [lra |].
      rewrite Forall_forall in Hall. apply Hall. apply in_map. exact Hg.
Qed.

Section Maximal.

Variable max_highlights : Z.

(** When the loop ends below [max_highlights], every group it was offered
    was taken or overlaps a group that was taken. *)
Lemma select_loop_maximal (groups : list ScoredGroup) :
  forall selected,
    (Z.of_nat (length (select_loop max_highlights selected groups))
     < max_highlights)%Z ->
    forall g, In g groups ->
      In g (select_loop max_highlights selected groups) \/
      exists s,
        In s (select_loop max_highlights selected groups) /\
        overlaps_with g s = true.
Proof.
  induction groups as [| group rest IH]; intros selected Hlen g Hin.
  - contradiction.
  - simpl in *.
    destruct (existsb (overlaps_with group) selected) eqn:E.
    + destruct Hin as [<- | Hin]; [| apply IH; assumption].
      right. apply existsb_exists in E. destruct E as (s & Hs & Hov).
      exists s. split; [| exact Hov].
      destruct (select_loop_prefix max_highlights rest selected) as [tail ->].
      apply in_or_app. left. exact Hs.
    + destruct (max_highlights <=? Z.of_nat (length (selected ++ [group])))%Z
        eqn:Emax.
      * apply Z.leb_le in Emax. lia.
      * destruct Hin as [<- | Hin]; [| apply IH; assumption].
        left.
        destruct (select_loop_prefix max_highlights rest (selected ++ [group]))
          as [tail ->].
        apply in_or_app. left. apply in_or_app. right. left. reflexivity.
Qed.

End Maximal.

Lemma Forall2_In_l {A B : Type} (R : A -> B -> Prop) (xs : list A)
    (ys : list B) (x : A) :
  Forall2 R xs ys -> In x xs -> exists y, In y ys /\ R x y.
Proof.
  intros H. induction H as [| a b xs' ys' Hab _ IH]; intros Hin.
  - contradiction.
  - destruct Hin as [-> | Hin].
    + exists b. split; [left; reflexivity | exact Hab].
    + destruct (IH Hin) as (y & Hy & Hxy). exists y. split; [right |]; auto.
Qed.

(** X13: when fewer than [max_highlights] highlights are returned, every
    candidate either became a highlight or overlaps a highlight. *)
Theorem select_highlights_maximal (self : Selector) (scenes : list Scene)
    (transcription_result : option TranscriptionResult) (max_highlights : Z) :
  exists hs,
    select_highlights self scenes transcription_result max_highlights
      = Some hs /\
    ((Z.of_nat (length hs) < max_highlights)%Z ->
     forall group g,
       In group (scene_groups self scenes) ->
       score_group
         match transcription_result with
         | Some r => words r
         | None => []
         end group = Some g ->
       exists h, In h hs /\ (same_as g h \/ overlaps_highlight g h)).
Proof.
  destruct (select_highlights_made self scenes transcription_result
              max_highlights) as (scored & hs & Ht & _ & Hsome & Hmade).
  exists hs. split; [exact Hsome |].
  intros Hlen group g Hin Hscore.
  rewrite <- (Forall2_length Hmade) in Hlen.
  assert (Hg : In g (sort_by_score scored)).
  { apply sort_by_score_In. eapply traverse_In; eassumption. }
  destruct (select_loop_maximal max_highlights (sort_by_score scored) []
              Hlen g Hg) as [Hsel | (s & Hs & Hov)].
  - destruct (Forall2_In_l _ _ _ g Hmade Hsel) as (h & Hh & Hgh).
    exists h. split; [exact Hh | left; apply made_of_same; exact Hgh].
  - destruct (Forall2_In_l _ _ _ s Hmade Hs) as (h & Hh & Hsh).
    exists h. split; [exact Hh | right].
    apply made_of_same in Hsh. destruct Hsh as (H1 & H2 & _).
    unfold overlaps_with in Hov. apply andb_true_iff in Hov.
    destruct Hov as [Ha Hb]. apply Qlt_bool_true in Ha, Hb.
    unfold overlaps_highlight. rewrite H1, H2. split; assumption.
Qed.

Lemma select_highlights_bounded_witness :
  exists hs,
    select_highlights Inputs.default_selector Inputs.one_scene None 1
      = Some hs /\
    (Z.of_nat (length hs) <= 1)%Z.
Proof.
  apply (select_highlights_bounded Inputs.default_selector Inputs.one_scene
           None 1).
  lia.
Defined.

(** ** Highlights are intervals *)

Lemma consistent_skipn (n : nat) :
  forall l, consistent l = true -> consistent (skipn n l) = true.
Proof.
  induction n as [| n IH]; intros l H; [exact H |].
  destruct l as [| s rest]; [reflexivity |].
  simpl. apply IH. apply consistent_cons in H. tauto.
Qed.

Lemma consistent_firstn (n : nat) :
  forall l, consistent l = true -> consistent (firstn n l) = true.
Proof.
  induction n as [| n IH]; intros l H; [reflexivity |].
  destruct l as [| s rest]; [reflexivity |].
  apply consistent_cons in H. destruct H as (H1 & H2 & H3).
  cbn [firstn]. apply consistent_intro; [exact H1 | | apply IH; exact H3].
  destruct n, rest; simpl; auto.
Qed.

Lemma consistent_hd_last (l : list Scene) :
  consistent l = true ->
  forall f t,
    hd_error l = Some f -> last_error l = Some t ->
    start_time f <= end_time t.
Proof.
  induction l as [| s rest IH]; intros H f t Hf Ht; [discriminate |].
  apply consistent_cons in H. destruct H as (H1 & H2 & H3).
  simpl in Hf. injection Hf as <-.
  destruct rest as [| n r].
  - simpl in Ht. injection Ht as <-. exact H1.
  - rewrite last_error_cons in Ht.
    specialize (IH H3 n t eq_refl Ht). lra.
Qed.

Lemma consistent_starts (b : Q) (l : list Scene) :
  consistent l = true ->
  (forall f, hd_error l = Some f -> b <= start_time f) ->
  Forall (fun s => b <= start_time s /\ start_time s <= end_time s) l.
Proof.
  induction l as [| s rest IH]; intros H Hb; [constructor |].
  apply consistent_cons in H. destruct H as (H1 & H2 & H3).
  pose proof (Hb s eq_refl) as Hs.
  constructor; [split; assumption |].
  apply IH; [exact H3 |]. intros f Hf.
  destruct rest as [| n r]; [discriminate |].
  simpl in Hf. injection Hf as <-. lra.
Qed.

Lemma py_max_lub (a b c : Q) : a <= c -> b <= c -> py_max a b <= c.
Proof. unfold py_max. destruct (Qlt_bool a b); auto. Qed.

(** X15: when the scenes are ordered, non-overlapping, without negative
    duration and start at or after 0, every highlight starts no later
    than it ends. *)
Theorem select_highlights_intervals (self : Selector) (scenes : list Scene)
    (transcription_result : option TranscriptionResult) (max_highlights : Z) :
  consistent scenes = true ->
  (forall first, hd_error scenes = Some first -> 0 <= start_time first) ->
  exists hs,
    select_highlights self scenes transcription_result max_highlights
      = Some hs /\
    Forall (fun h => hl_start_time h <= hl_end_time h /\ 0 <= hl_duration h)
      hs.
Proof.
  intros Hcons Hstart.
  destruct (select_highlights_made self scenes transcription_result
              max_highlights) as (scored & hs & Ht & Hall & Hsome & Hmade).
  exists hs. split; [exact Hsome |].
  pose proof (consistent_starts 0 scenes Hcons Hstart) as Hpos.
  rewrite Forall_forall in Hpos.
  assert (Hvalid : Forall (fun g => g_start_time g <= g_end_time g) scored).
  { apply Forall_forall. intros g Hg.
    assert (Hin : In (g_scenes g) (scene_groups self scenes)).
    { apply traverse_inv in Ht. clear - Ht Hg.
      induction Ht as [| group g' groups gs Hs _ IH]; [contradiction |].
      destruct Hg as [<- | Hg]; [left | right; auto].
      unfold score_group in Hs.
      destruct (hd_error group), (last_error group); try discriminate.
      injection Hs as <-. reflexivity. }
    apply scene_groups_In in Hin. destruct Hin as (i & j & _ & Hgs).
    rewrite Forall_forall in Hall. destruct (Hall g Hg) as [_ Hanch].
    destruct Hanch as (first & last & Hfirst & Hlast & _ & Hl & -> & ->).
    assert (Hfl : start_time first <= end_time last).
    { apply (consistent_hd_last (g_scenes g)); [| exact Hfirst | exact Hlast].
      rewrite Hgs. unfold full_group, slice.
      apply consistent_firstn, consistent_skipn. exact Hcons. }
    destruct (Hpos last Hl) as [Hl0 Hl1].
    apply py_max_lub; unfold context_window; lra. }
  apply (Forall2_Forall_r made_of (fun g => g_start_time g <= g_end_time g)
           (fun h => hl_start_time h <= hl_end_time h /\ 0 <= hl_duration h)
           (select_loop max_highlights [] (sort_by_score scored))).
  - intros g h Hg Hm. apply made_of_same in Hm.
    destruct Hm as (H1 & H2 & _). unfold hl_duration. rewrite H1, H2.
    split; lra.
  - exact Hmade.
  - apply select_loop_Forall; [constructor |].
    apply sort_by_score_Forall. exact Hvalid.
Qed.

Lemma select_highlights_intervals_witness :
  exists hs,
    select_highlights Inputs.default_selector Inputs.two_silent_then_speech
      None 5 = Some hs /\
    Forall (fun h => hl_start_time h <= hl_end_time h /\ 0 <= hl_duration h)
      hs.
Proof.
  apply (select_highlights_intervals Inputs.default_selector
           Inputs.two_silent_then_speech None 5).
  - reflexivity.
  - intros first H. injection H as <-. vm_compute. discriminate.
Defined.

(** ** detect_scenes *)

Lemma scene_speech_inside (segs : list (Q * Q)) (a b : Q) :
  Forall (fun seg => a <= fst seg /\ snd seg <= b)
    (SceneDetection.scene_speech segs a b).
Proof.
  unfold SceneDetection.scene_speech. apply Forall_forall. intros seg Hin.
  apply in_flat_map in Hin. destruct Hin as ([s e] & _ & Hin).
  destruct (Qle_bool s b && Qle_bool a e); [| contradiction].
  destruct Hin as [<- | []]. simpl. split.
  - apply py_max_ge_l.
  - apply py_min_le_l.
Qed.

Lemma Qdiv_lt_inject (a b : Z) (c : Q) :
  (a < b)%Z -> 0 < c -> inject_Z a / c < inject_Z b / c.
Proof.
  intros Hab Hc. unfold Qdiv. apply Qmult_lt_compat_r.
  - apply Qinv_lt_0_compat. exact Hc.
  - rewrite <- Zlt_Qlt. exact Hab.
Qed.

Section DetectScenes.

Import SceneDetection.

Variable self : Detector.
Variable frame : Type.
Variable fps : Q.
Variable frame_count : Z.
Variable read : Z -> option frame.
Variable mean_abs_diff : frame -> frame -> Q.
Variable speech : list (Q * Q).

Local Abbreviation close := (close_scene fps speech).
Local Abbreviation inv := (scan_inv self frame fps frame_count speech).
Local Abbreviation scanning := (scan self frame fps frame_count read mean_abs_diff speech).
Local Abbreviation stepping := (step self frame fps mean_abs_diff speech).
Local Abbreviation rate := (frame_sample_rate fps).

Lemma rate_pos : (1 <= rate)%Z.
Proof. unfold frame_sample_rate. lia. Qed.

Lemma run_snoc (from : Q) (l : list Scene) :
  forall mid s,
    run from l mid -> start_time s = mid ->
    run from (l ++ [s]) (end_time s).
Proof.
  revert from. induction l as [| x l' IH]; intros from mid s H Hs; simpl in *.
  - subst. split; reflexivity.
  - destruct H as [Hx Hrest]. split; [exact Hx |]. eapply IH; eassumption.
Qed.

Lemma initial_inv : inv (initial frame).
Proof.
  constructor; simpl; try lia; auto.
  - intros H. contradiction.
  - intros H. contradiction.
Qed.

(** The loop body keeps the invariant. *)
Lemma step_inv (st : scan_state frame) (gray : frame) :
  inv st ->
  (actual_frame_idx frame st < frame_count)%Z ->
  inv (stepping st gray).
Proof.
  intros [H1 H2 H3 H4 H5 H6 H7] Hidx. pose proof rate_pos as Hrate.
  unfold step. destruct (last_frame frame st) as [last |] eqn:El.
  - assert (Hlt : (current_scene_start frame st < actual_frame_idx frame st)%Z)
      by (apply H3; discriminate).
    destruct (scene_change self frame fps mean_abs_diff st gray last) eqn:Ec.
    + unfold scene_change in Ec. apply andb_true_iff in Ec.
      destruct Ec as [_ Emin]. apply Z.leb_le in Emin.
      constructor; simpl; try lia.
      * intros H. discriminate.
      * eapply run_snoc; [exact H4 | reflexivity].
      * intros H. destruct (scenes frame st); discriminate.
      * apply Forall_app. split; [exact H7 |]. constructor; [| constructor].
        exists (current_scene_start frame st), (actual_frame_idx frame st).
        repeat split; auto; lia.
    + constructor; simpl; try lia; auto.
      intros H. discriminate.
  - destruct (H2 eq_refl) as [Hi Hs].
    constructor; simpl; try lia; auto.
    + intros H. discriminate.
    + intros _. rewrite (H5 Hs), Hi. lia.
Qed.

Lemma scan_inv_kept (fuel : nat) :
  forall st, inv st -> inv (scanning fuel st).
Proof.
  induction fuel as [| fuel' IH]; intros st Hst; simpl; [exact Hst |].
  destruct (actual_frame_idx frame st <? frame_count)%Z eqn:E; [| exact Hst].
  destruct (read (actual_frame_idx frame st)) as [gray |]; [| exact Hst].
  apply IH. apply step_inv; [exact Hst |]. apply Z.ltb_lt. exact E.
Qed.

Local Abbreviation detected :=
  (detect_scenes self frame fps frame_count read mean_abs_diff speech).
Local Abbreviation final_state :=
  (scanning (Z.to_nat frame_count) (initial frame)).

Lemma final_state_inv : inv final_state.
Proof. apply scan_inv_kept. apply initial_inv. Qed.

(** The loop stops by itself within the iterations it is given. *)
Lemma scan_finished (fuel : nat) :
  forall st,
    (frame_count - actual_frame_idx frame st <= Z.of_nat fuel)%Z ->
    finished frame frame_count read (scanning fuel st).
Proof.
  pose proof rate_pos as Hrate.
  induction fuel as [| fuel' IH]; intros st Hfuel; simpl.
  - left. lia.
  - destruct (actual_frame_idx frame st <? frame_count)%Z eqn:E.
    + destruct (read (actual_frame_idx frame st)) as [gray |] eqn:Er.
      * apply IH. unfold step.
        destruct (last_frame frame st) as [last |];
          [destruct (scene_change self frame fps mean_abs_diff st gray last) |];
          simpl; lia.
      * right. exact Er.
    + left. apply Z.ltb_ge. exact E.
Qed.

Lemma finished_scan (fuel : nat) (st : scan_state frame) :
  finished frame frame_count read st -> scanning fuel st = st.
Proof.
  intros Hfin. destruct fuel as [| fuel']; simpl; [reflexivity |].
  destruct (actual_frame_idx frame st <? frame_count)%Z eqn:E;
    [| reflexivity].
  apply Z.ltb_lt in E. destruct Hfin as [Hge | Hnone]; [lia |].
  rewrite Hnone. reflexivity.
Qed.

Lemma scan_add (a b : nat) :
  forall st, scanning (a + b) st = scanning b (scanning a st).
Proof.
  induction a as [| a' IH]; intros st; simpl; [reflexivity |].
  destruct (actual_frame_idx frame st <? frame_count)%Z eqn:E.
  - destruct (read (actual_frame_idx frame st)) as [gray |] eqn:Er.
    + apply IH.
    + symmetry. apply finished_scan. right. exact Er.
  - symmetry. apply finished_scan. left. apply Z.ltb_ge. exact E.
Qed.

(** X16: the [while] loop of [detect_scenes] ends by its own condition
    or by a failed read within [frame_count] iterations; further
    iterations change nothing. *)
Theorem detect_scenes_loop_ends (extra : nat) :
  finished frame frame_count read final_state /\
  scanning (Z.to_nat frame_count + extra) (initial frame) = final_state.
Proof.
  assert (Hfin : finished frame frame_count read final_state).
  { apply scan_finished. simpl. lia. }
  split; [exact Hfin |].
  rewrite scan_add. apply finished_scan. exact Hfin.
Qed.

Lemma run_contiguous (l : list Scene) :
  forall from to, run from l to -> contiguous l.
Proof.
  induction l as [| s l' IH]; intros from to H; simpl in *; [exact I |].
  destruct H as [_ Hrest]. split; [| eapply IH; exact Hrest].
  destruct l' as [| n l'']; [exact I |].
  simpl in Hrest. destruct Hrest as [Hn _]. rewrite Hn. reflexivity.
Qed.

Lemma run_last (l : list Scene) :
  forall from to t, run from l to -> last_error l = Some t -> end_time t = to.
Proof.
  induction l as [| s l' IH]; intros from to t H Ht; [discriminate |].
  simpl in H. destruct H as [_ Hrest]. destruct l' as [| n l''].
  - simpl in *. injection Ht as <-. exact Hrest.
  - rewrite last_error_cons in Ht. eapply IH; eassumption.
Qed.

Lemma linked_impl (R T : Q -> Q -> Prop) (l : list Scene) :
  (forall a b, R a b -> T a b) -> linked R l -> linked T l.
Proof.
  intros HRT. induction l as [| s l' IH]; simpl; [auto |].
  intros [H1 H2]. split; [| apply IH; exact H2].
  destruct l'; [exact I | apply HRT; exact H1].
Qed.

(** What [detect_scenes] returns, from the final state of the loop. *)
Lemma detected_shape :
  ~ fps == 0 ->
  exists to,
    run (inject_Z 0 / fps) detected to /\
    ((detected = scenes frame final_state ++
                 [close (current_scene_start frame final_state)
                    (inject_Z frame_count / fps)] /\
      (current_scene_start frame final_state < frame_count - 1)%Z /\
      to = inject_Z frame_count / fps) \/
     (detected = scenes frame final_state /\
      (frame_count - 1 <= current_scene_start frame final_state)%Z /\
      to = inject_Z (current_scene_start frame final_state) / fps)).
Proof.
  intros Hfps. unfold detect_scenes.
  assert (E : Qeq_bool fps 0 = false).
  { destruct (Qeq_bool fps 0) eqn:E; [| reflexivity].
    apply Qeq_bool_iff in E. contradiction. }
  rewrite E. unfold add_final_scene.
  pose proof final_state_inv as Hinv. destruct Hinv as [_ _ _ Hrun _ _ _].
  destruct (current_scene_start frame final_state <? frame_count - 1)%Z eqn:Ef.
  - apply Z.ltb_lt in Ef. exists (inject_Z frame_count / fps). split.
    + apply (run_snoc _ _ _ (close (current_scene_start frame final_state)
                               (inject_Z frame_count / fps)) Hrun).
      reflexivity.
    + left. auto.
  - apply Z.ltb_ge in Ef.
    exists (inject_Z (current_scene_start frame final_state) / fps).
    split; [exact Hrun | right; auto].
Qed.

Lemma closed_positive (s : Scene) :
  0 < fps ->
  closed_at_boundary self fps frame_count speech s ->
  start_time s < end_time s.
Proof.
  intros Hfps (a & b & Hab & _ & _ & ->). simpl.
  apply Qdiv_lt_inject; [lia | exact Hfps].
Qed.

(** X17: for a positive frame rate the scenes that [detect_scenes]
    returns start at time 0, each starts exactly where the one before it
    ends, and each has a positive duration; so they are ordered and do not
    overlap. *)
Theorem detect_scenes_contiguous :
  0 < fps ->
  contiguous detected /\
  Forall (fun s => start_time s < end_time s) detected /\
  consistent detected = true /\
  (forall first, hd_error detected = Some first -> start_time first == 0).
Proof.
  intros Hfps.
  assert (Hne : ~ fps == 0) by (intros H; rewrite H in Hfps; lra).
  destruct (detected_shape Hne) as (to & Hrun & Hshape).
  pose proof final_state_inv as Hinv.
  destruct Hinv as [_ _ _ _ _ _ Hclosed].
  assert (Hcont : contiguous detected) by (eapply run_contiguous; exact Hrun).
  assert (Hpos : Forall (fun s => start_time s < end_time s) detected).
  { destruct Hshape as [(-> & Hlt & _) | (-> & _ & _)].
    - apply Forall_app. split.
      + eapply Forall_impl; [| exact Hclosed].
        intros s Hs. apply closed_positive; assumption.
      + constructor; [| constructor]. simpl.
        apply Qdiv_lt_inject; [lia | exact Hfps].
    - eapply Forall_impl; [| exact Hclosed].
      intros s Hs. apply closed_positive; assumption. }
  repeat split; auto.
  - apply consistent_linked. split.
    + eapply Forall_impl; [| exact Hpos]. simpl. intros s Hs. lra.
    + apply (linked_impl Qeq Qle); [| exact Hcont].
      intros a b Hab. rewrite Hab. lra.
  - intros first Hfirst. destruct detected as [| s l]; [discriminate |].
    simpl in Hfirst. injection Hfirst as <-.
    simpl in Hrun. destruct Hrun as [-> _]. unfold Qdiv.
    change (inject_Z 0) with 0. apply Qmult_0_l.
Qed.

(** X18: [detect_scenes] returns no scene exactly when the frame rate is
    0 or the video has at most one frame; otherwise the last scene ends at
    the duration of the video or, when a boundary fell on the last frame,
    one frame earlier. *)
Theorem detect_scenes_coverage :
  (detected = [] <-> fps == 0 \/ (frame_count <= 1)%Z) /\
  (forall last,
     last_error detected = Some last ->
     end_time last = inject_Z frame_count / fps \/
     end_time last = inject_Z (frame_count - 1) / fps).
Proof.
  destruct (Qeq_dec fps 0) as [Hz | Hne].
  - assert (E : detected = []).
    { unfold detect_scenes. apply Qeq_bool_iff in Hz. rewrite Hz. reflexivity. }
    rewrite E. split; [tauto | discriminate].
  - destruct (detected_shape Hne) as (to & Hrun & Hshape).
    pose proof final_state_inv as Hinv.
    destruct Hinv as [_ _ _ _ Hempty Hnonempty Hclosed].
    assert (Hsome : scenes frame final_state <> [] -> (2 <= frame_count)%Z).
    { intros Hs. destruct (scenes frame final_state) as [| s l];
        [contradiction |].
      inversion Hclosed as [| ? ? (a & b & Hab & Hb & _) _]. lia. }
    split.
    + split.
      * intros Hnil. right.
        destruct Hshape as [(E & _) | (E & Hge & _)].
        -- rewrite Hnil in E. destruct (scenes frame final_state); discriminate.
        -- rewrite Hnil in E. symmetry in E. rewrite (Hempty E) in Hge. lia.
      * intros [Hz | Hfc]; [contradiction |].
        assert (Hs : scenes frame final_state = []).
        { destruct (scenes frame final_state) as [| s l] eqn:Es;
            [reflexivity |].
          assert (2 <= frame_count)%Z by (apply Hsome; discriminate). lia. }
        destruct Hshape as [(_ & Hlt & _) | (-> & _)]; [| exact Hs].
        rewrite (Hempty Hs) in Hlt. lia.
    + intros last Hlast. pose proof (run_last _ _ _ _ Hrun Hlast) as Hend.
      destruct Hshape as [(_ & _ & ->) | (E & Hge & ->)]; [left; exact Hend |].
      right. rewrite Hend.
      assert (Hs : scenes frame final_state <> []).
      { intros Hs. rewrite Hs in E. rewrite E in Hlast. discriminate. }
      specialize (Hnonempty Hs).
      replace (current_scene_start frame final_state)
        with (frame_count - 1)%Z by lia.
      reflexivity.
Qed.

(** X19: every speech segment attached to a scene by [detect_scenes] lies
    inside that scene. *)
Theorem detect_scenes_speech_inside :
  Forall speech_inside detected.
Proof.
  destruct (Qeq_dec fps 0) as [Hz | Hne].
  - unfold detect_scenes. apply Qeq_bool_iff in Hz. rewrite Hz. constructor.
  - destruct (detected_shape Hne) as (to & _ & Hshape).
    pose proof final_state_inv as Hinv.
    destruct Hinv as [_ _ _ _ _ _ Hclosed].
    assert (Hin : Forall speech_inside (scenes frame final_state)).
    { eapply Forall_impl; [| exact Hclosed].
      intros s (a & b & _ & _ & _ & ->). unfold speech_inside. simpl.
      apply scene_speech_inside. }
    destruct Hshape as [(-> & _) | (-> & _)]; [| exact Hin].
    apply Forall_app. split; [exact Hin |]. constructor; [| constructor].
    unfold speech_inside. simpl. apply scene_speech_inside.
Qed.





End DetectScenes.

Lemma detect_scenes_contiguous_witness :
  SceneDetection.detect_scenes Samples.detector Z 1 4 Samples.read_frame
    Samples.gray_diff Samples.speech
  = [mkScene 0 2 [(0, 2)]; mkScene 2 4 [(2, 3)]] /\
  contiguous
    (SceneDetection.detect_scenes Samples.detector Z 1 4 Samples.read_frame
       Samples.gray_diff Samples.speech).
Proof.
  split; [vm_compute; reflexivity |].
  apply (detect_scenes_contiguous Samples.detector Z 1 4 Samples.read_frame
           Samples.gray_diff Samples.speech).
  vm_compute. reflexivity.
Defined.



(** ** get_speech_segments *)

Section SpeechSpans.

Import Transcriber.

Variable min_segment_duration : Q.
Variable max_segment_duration : Q.

Local Abbreviation stepping :=
  (group_step min_segment_duration max_segment_duration).




(** X23: when no segment has a [next] entry, as in the results that
    [transcribe] builds, and every segment lasts between
    [min_segment_duration] and [max_segment_duration], the spans are the
    segments themselves, one span per segment. *)
Theorem get_speech_segments_per_segment (segments : list Segment) :
  Forall
    (fun seg =>
       seg_next seg = None /\
       min_segment_duration <= seg_end seg - seg_start seg
                            <= max_segment_duration)
    segments ->
  get_speech_segments min_segment_duration max_segment_duration segments =
  map (fun seg =>
         (seg_start seg, seg_start seg + (0 + (seg_end seg - seg_start seg))))
    segments.
Proof.
  intros Hall. unfold get_speech_segments.
  assert (Hgen : forall done,
            spans (fold_left stepping segments (mkGrouping done None 0)) =
            done ++
            map (fun seg =>
                   (seg_start seg,
                    seg_start seg + (0 + (seg_end seg - seg_start seg))))
              segments).
  { induction Hall as [| seg rest [Hnext [Hmin Hmax]] _ IH]; intros done;
      simpl.
    - rewrite app_nil_r. reflexivity.
    - unfold group_step at 2. simpl. rewrite Hnext.
      assert (E1 : Qlt_bool max_segment_duration
                     (0 + (seg_end seg - seg_start seg)) = false)
        by (apply Qlt_bool_false; lra).
      assert (E2 : Qle_bool min_segment_duration
                     (0 + (seg_end seg - seg_start seg)) = true)
        by (apply Qle_bool_iff; lra).
      rewrite E1. simpl. rewrite E2. rewrite IH, <- app_assoc. reflexivity. }
  apply (Hgen []).
Qed.

End SpeechSpans.


Lemma get_speech_segments_per_segment_witness :
  Transcriber.get_speech_segments 1 60 Samples.two_segments =
  [(0, 0 + (0 + (2 - 0))); (4, 4 + (0 + (7 - 4)))].
Proof.
  apply (get_speech_segments_per_segment 1 60 Samples.two_segments).
  repeat constructor; vm_compute; discriminate.
Defined.

(** ** transcribe and get_words_in_timerange *)

Section Extraction.

Import Transcriber.

Lemma extract_words_positive (ws : list raw_word) :
  Forall
    (fun w => w_start w < w_end w /\ w_word w = None /\ w_text w <> None)
    (extract_words ws).
Proof.
  unfold extract_words. apply Forall_forall. intros w Hin.
  apply in_flat_map in Hin. destruct Hin as (rw & _ & Hin).
  destruct rw as [| [s |] [e |] text]; try contradiction.
  destruct (Qlt_bool 0 (e - s)) eqn:E; [| contradiction].
  apply Qlt_bool_true in E. destruct Hin as [<- | []]. simpl.
  repeat split; [lra | discriminate].
Qed.

Lemma extract_inv (raw : list raw_segment) :
  forall segments words,
    Forall
      (fun seg =>
         seg_words seg = None /\ seg_next seg = None /\
         seg_text seg <> EmptyString)
      segments ->
    Forall
      (fun w => w_start w < w_end w /\ w_word w = None /\ w_text w <> None)
      words ->
    let '(segments', words') :=
      fold_left
        (fun acc segment =>
           let '(segments, words) := acc in
           let text :=
             PyStr.strip (or_default EmptyString (raw_text segment)) in
           if PyStr.is_empty text then acc
           else
             (segments ++
              [mkSegment (or_default 0 (raw_start segment))
                 (or_default 0 (raw_end segment)) text None None],
              match raw_words segment with
              | Some ws => words ++ extract_words ws
              | None => words
              end))
        raw (segments, words) in
    Forall
      (fun seg =>
         seg_words seg = None /\ seg_next seg = None /\
         seg_text seg <> EmptyString)
      segments' /\
    Forall
      (fun w => w_start w < w_end w /\ w_word w = None /\ w_text w <> None)
      words'.
Proof.
  induction raw as [| r raw' IH]; intros segments words Hs Hw; simpl.
  - auto.
  - destruct (PyStr.is_empty
                (PyStr.strip (or_default EmptyString (raw_text r)))) eqn:E.
    + apply IH; assumption.
    + apply IH.
      * apply Forall_app. split; [exact Hs |]. constructor; [| constructor].
        simpl. repeat split. intros Hnil. rewrite Hnil in E. discriminate.
      * destruct (raw_words r) as [ws |]; [| exact Hw].
        apply Forall_app. split; [exact Hw | apply extract_words_positive].
Qed.

Lemma extract_well_formed_aux (raw : list raw_segment) :
  Forall
    (fun seg =>
       seg_words seg = None /\ seg_next seg = None /\
       seg_text seg <> EmptyString)
    (fst (extract raw)) /\
  Forall
    (fun w => w_start w < w_end w /\ w_word w = None /\ w_text w <> None)
    (snd (extract raw)).
Proof.
  pose proof (extract_inv raw [] [] (Forall_nil _) (Forall_nil _)) as H.
  unfold extract. destruct (fold_left _ raw ([], [])) as [segments words].
  exact H.
Qed.

(** X24: every word that [transcribe] collects has a positive duration
    and carries its text under the key [text]; every segment it collects
    has a non-empty text and neither a [words] nor a [next] entry. *)
Theorem extract_well_formed (raw : list raw_segment) :
  Forall
    (fun seg =>
       seg_words seg = None /\ seg_next seg = None /\
       seg_text seg <> EmptyString)
    (fst (extract raw)) /\
  Forall
    (fun w => w_start w < w_end w /\ w_word w = None /\ w_text w <> None)
    (snd (extract raw)).
Proof.
  apply extract_well_formed_aux.
Qed.

(** On segments without word-level timestamps [get_words_in_timerange]
    returns whole segments. *)
Lemma get_words_whole_segments (segments : list Segment)
    (start_time end_time : Q) :
  Forall (fun seg => seg_words seg = None) segments ->
  get_words_in_timerange segments start_time end_time =
  map whole_segment
    (filter (segment_in_range start_time end_time) segments).
Proof.
  intros Hall. unfold get_words_in_timerange.
  induction Hall as [| seg rest Hseg _ IH]; simpl; [reflexivity |].
  rewrite IH. unfold segment_in_range at 2.
  destruct (Qle_bool (seg_start seg) end_time &&
            Qle_bool start_time (seg_end seg)); [| reflexivity].
  rewrite Hseg. reflexivity.
Qed.

(** X25: on the segments that [transcribe] collects,
    [get_words_in_timerange] never returns single words: it returns, in
    order, one entry per segment that overlaps the time range, with the
    times and the text of the whole segment. *)
Theorem get_words_of_transcript (raw : list raw_segment)
    (start_time end_time : Q) :
  get_words_in_timerange (fst (extract raw)) start_time end_time =
  map whole_segment
    (filter (segment_in_range start_time end_time) (fst (extract raw))).
Proof.
  apply get_words_whole_segments.
  eapply Forall_impl; [| apply (proj1 (extract_well_formed_aux raw))].
  intros seg [H _]. exact H.
Qed.

End Extraction.

(** ** generate_captions *)

Lemma string_length_app (a b : string) :
  String.length (a ++ b) = (String.length a + String.length b)%nat.
Proof. induction a as [| c a IH]; simpl; [reflexivity | rewrite IH; reflexivity]. Qed.

Lemma string_of_list_ascii_length (l : list ascii) :
  String.length (string_of_list_ascii l) = length l.
Proof. induction l as [| c l IH]; simpl; [reflexivity | rewrite IH; reflexivity]. Qed.

Lemma list_ascii_of_string_length (s : string) :
  length (list_ascii_of_string s) = String.length s.
Proof. induction s as [| c s IH]; simpl; [reflexivity | rewrite IH; reflexivity]. Qed.

Lemma lstrip_list_length (l : list ascii) :
  (length (PyStr.lstrip_list l) <= length l)%nat.
Proof.
  induction l as [| c l IH]; simpl; [lia |].
  destruct (PyStr.is_space c); simpl; lia.
Qed.

(** Stripping never makes a text longer. *)
Lemma strip_length (s : string) :
  (String.length (PyStr.strip s) <= String.length s)%nat.
Proof.
  unfold PyStr.strip. rewrite string_of_list_ascii_length, length_rev.
  eapply Nat.le_trans; [apply lstrip_list_length |].
  rewrite length_rev.
  eapply Nat.le_trans; [apply lstrip_list_length |].
  rewrite list_ascii_of_string_length. lia.
Qed.

Section CaptionLines.

Import Transcriber Captions.

Variable highlight : Highlight.

Local Abbreviation looping := (caption_loop highlight).
Local Abbreviation offset := (hl_start_time highlight).

Lemma caption_run_snoc (captions : list Caption) :
  forall from mid c,
    caption_run from captions mid -> c_start_time c = mid ->
    caption_run from (captions ++ [c]) (c_end_time c).
Proof.
  induction captions as [| x l IH]; intros from mid c H Hc; simpl in *.
  - subst. split; reflexivity.
  - destruct H as [Hx Hrest]. split; [exact Hx |]. eapply IH; eassumption.
Qed.

(** The loop fails only on a word without text. *)
Lemma caption_loop_total (words : list Word) :
  Forall (fun w => w_text w <> None) words ->
  forall captions current_line line_start_time,
    looping words captions current_line line_start_time <> None.
Proof.
  intros Hall. induction Hall as [| w rest Hw _ IH]; intros cs cl lst; simpl.
  - discriminate.
  - destruct (w_text w) as [text |]; [| contradiction].
    destruct (40 <? String.length ((cl ++ " ") ++ text))%nat; apply IH.
Qed.

(** The captions of the loop follow one another without gap. *)
Lemma caption_loop_run (words : list Word) :
  forall captions current_line line_start_time from captions' line' start',
    caption_run from captions (line_start_time - offset) ->
    looping words captions current_line line_start_time
      = Some (captions', line', start') ->
    caption_run from captions' (start' - offset).
Proof.
  induction words as [| w rest IH];
    intros cs cl lst from cs' cl' lst' Hrun Hloop; simpl in Hloop.
  - injection Hloop as <- <- <-. exact Hrun.
  - destruct (w_text w) as [text |]; [| discriminate].
    destruct (40 <? String.length ((cl ++ " ") ++ text))%nat.
    + eapply IH; [| exact Hloop].
      apply (caption_run_snoc cs from (lst - offset)
               (mkCaption (lst - offset) (w_start w - offset)
                  (PyStr.strip cl))); [exact Hrun | reflexivity].
    + eapply IH; [exact Hrun | exact Hloop].
Qed.

(** With words of at most 40 characters no line grows beyond 40. *)
Lemma caption_loop_short (words : list Word) :
  Forall
    (fun w => forall t, w_text w = Some t -> (String.length t <= 40)%nat)
    words ->
  forall captions current_line line_start_time captions' line' start',
    Forall (fun c => (String.length (c_text c) <= 40)%nat) captions ->
    (String.length current_line <= 40)%nat ->
    looping words captions current_line line_start_time
      = Some (captions', line', start') ->
    Forall (fun c => (String.length (c_text c) <= 40)%nat) captions' /\
    (String.length line' <= 40)%nat.
Proof.
  intros Hall. induction Hall as [| w rest Hw _ IH];
    intros cs cl lst cs' cl' lst' Hcs Hcl Hloop; simpl in Hloop.
  - injection Hloop as <- <- <-. auto.
  - destruct (w_text w) as [text |] eqn:Et; [| discriminate].
    specialize (Hw text eq_refl).
    destruct (40 <? String.length ((cl ++ " ") ++ text))%nat eqn:E.
    + eapply IH; [| exact Hw | exact Hloop].
      apply Forall_app. split; [exact Hcs |]. constructor; [| constructor].
      simpl. pose proof (strip_length cl). lia.
    + apply Nat.ltb_ge in E. eapply IH; [exact Hcs | | exact Hloop].
      destruct (PyStr.is_empty cl); [exact Hw |].
      rewrite !string_length_app in *. simpl in *. lia.
Qed.

End CaptionLines.

Section CaptionsOfHighlight.

Import Transcriber Captions.

Variable highlight : Highlight.
Variable segments : list Segment.

Local Abbreviation found :=
  (get_words_in_timerange segments (hl_start_time highlight)
     (hl_end_time highlight)).

(** X26: the captions follow one another without gap: each starts exactly
    when the one before it ends, the first one when the first word starts,
    counted from the start of the highlight; without words in the range
    there is no caption. *)
Theorem generate_captions_run (captions : list Caption) :
  generate_captions highlight segments = Some captions ->
  (found = [] -> captions = []) /\
  (forall first,
     hd_error found = Some first ->
     exists to,
       caption_run (w_start first - hl_start_time highlight) captions to).
Proof.
  unfold generate_captions. intros H. destruct found as [| w ws] eqn:E.
  - injection H as <-. split; [reflexivity | discriminate].
  - split; [discriminate |]. intros first Hfirst. simpl in Hfirst.
    injection Hfirst as <-.
    destruct (caption_loop highlight (w :: ws) [] EmptyString (w_start w))
      as [[[cs cl] lst] |] eqn:El; [| discriminate].
    assert (Hrun : caption_run (w_start w - hl_start_time highlight) cs
                     (lst - hl_start_time highlight)).
    { eapply caption_loop_run; [| exact El]. reflexivity. }
    destruct (PyStr.is_empty cl).
    + injection H as <-. eexists. exact Hrun.
    + destruct (last_error (w :: ws)) as [last |]; [| discriminate].
      injection H as <-. eexists.
      apply (caption_run_snoc cs _ (lst - hl_start_time highlight)
               (mkCaption (lst - hl_start_time highlight)
                  (w_end last - hl_start_time highlight) (PyStr.strip cl)));
        [exact Hrun | reflexivity].
Qed.

(** X27: when no word in the range has a text of more than 40 characters,
    no caption has a text of more than 40 characters. *)
Theorem generate_captions_short (captions : list Caption) :
  Forall
    (fun w => forall t, w_text w = Some t -> (String.length t <= 40)%nat)
    found ->
  generate_captions highlight segments = Some captions ->
  Forall (fun c => (String.length (c_text c) <= 40)%nat) captions.
Proof.
  unfold generate_captions. intros Hall H. destruct found as [| w ws] eqn:E.
  - injection H as <-. constructor.
  - destruct (caption_loop highlight (w :: ws) [] EmptyString (w_start w))
      as [[[cs cl] lst] |] eqn:El; [| discriminate].
    destruct (caption_loop_short highlight (w :: ws) Hall [] EmptyString
                (w_start w) cs cl lst (Forall_nil _) (Nat.le_0_l _) El)
      as [Hcs Hcl].
    destruct (PyStr.is_empty cl).
    + injection H as <-. exact Hcs.
    + destruct (last_error (w :: ws)) as [last |]; [| discriminate].
      injection H as <-. apply Forall_app. split; [exact Hcs |].
      constructor; [| constructor]. simpl.
      pose proof (strip_length cl). lia.
Qed.

(** [generate_captions] fails only on a word without text. *)
Lemma generate_captions_total :
  Forall (fun w => w_text w <> None) found ->
  exists captions, generate_captions highlight segments = Some captions.
Proof.
  unfold generate_captions. intros Hall. destruct found as [| w ws] eqn:E.
  - exists []. reflexivity.
  - pose proof (caption_loop_total highlight (w :: ws) Hall [] EmptyString
                  (w_start w)) as Hloop.
    destruct (caption_loop highlight (w :: ws) [] EmptyString (w_start w))
      as [[[cs cl] lst] |]; [| contradiction].
    destruct (PyStr.is_empty cl); [eexists; reflexivity |].
    destruct (last_error_nonempty (w :: ws)) as [last ->]; [discriminate |].
    eexists. reflexivity.
Qed.

End CaptionsOfHighlight.

(** X28: on the segments that [transcribe] collects, [generate_captions]
    never fails with a missing key: it returns captions for every
    highlight. *)
Theorem generate_captions_of_transcript (highlight : Highlight)
    (raw : list Transcriber.raw_segment) :
  exists captions,
    Captions.generate_captions highlight (fst (Transcriber.extract raw))
      = Some captions.
Proof.
  apply generate_captions_total.
  rewrite get_words_whole_segments.
  - apply Forall_forall. intros w Hin. apply in_map_iff in Hin.
    destruct Hin as (seg & <- & _). discriminate.
  - eapply Forall_impl; [| apply (proj1 (extract_well_formed_aux raw))].
    intros seg [H _]. exact H.
Qed.

Lemma generate_captions_run_witness :
  Captions.generate_captions Samples.first_ten Samples.two_segments =
    Some [Captions.mkCaption (0 - 0) (7 - 0) "hello there general remarks"] /\
  exists to,
    Captions.caption_run (0 - 0)
      [Captions.mkCaption (0 - 0) (7 - 0) "hello there general remarks"] to.
Proof.
  assert (H : Captions.generate_captions Samples.first_ten
                Samples.two_segments =
              Some [Captions.mkCaption (0 - 0) (7 - 0)
                      "hello there general remarks"]) by reflexivity.
  split; [exact H |].
  apply (proj2 (generate_captions_run Samples.first_ten Samples.two_segments
                  _ H)
           (Transcriber.whole_segment
              (Transcriber.mkSegment 0 2 "hello there" None None))).
  reflexivity.
Defined.

Lemma generate_captions_short_witness :
  Forall (fun c => (String.length (Captions.c_text c) <= 40)%nat)
    [Captions.mkCaption (0 - 0) (7 - 0) "hello there general remarks"].
Proof.
  apply (generate_captions_short Samples.first_ten Samples.two_segments).
  - cbv [Transcriber.get_words_in_timerange Samples.two_segments flat_map]. simpl.
    constructor; [intros t H; injection H as <-; simpl; lia |].
    constructor; [intros t H; injection H as <-; simpl; lia |].
    constructor.
  - reflexivity.
Defined.

(** ** The text and the score of a highlight *)

Lemma len_nonneg {A : Type} (xs : list A) : 0 <= len xs.
Proof.
  unfold len. change 0 with (inject_Z 0). rewrite <- Zle_Qle. lia.
Qed.

Lemma score_group_text (word_list : list Word) (group : list Scene)
    (g : ScoredGroup) :
  score_group word_list group = Some g -> text_of_range word_list g.
Proof.
  unfold score_group.
  destruct (hd_error group) as [first |]; [| discriminate].
  destruct (last_error group) as [last |]; [| discriminate].
  cbv zeta. intros H. injection H as <-. unfold text_of_range. simpl.
  repeat split.
  set (text := _get_text_for_timerange word_list _ _).
  pose proof (proj1 (score_text_with_keywords_bounds_aux text)) as Hc.
  pose proof (len_nonneg (PyStr.split text)) as Hx.
  pose proof (len_nonneg group) as Ht.
  unfold _score_text, _score_context, _score_transitions.
  assert (Hx' : 0 <= len (PyStr.split text) / 100)
    by (apply Qdiv_nonneg; [exact Hx | lra]).
  assert (Ht' : 0 <= len group / 10)
    by (apply Qdiv_nonneg; [exact Ht | lra]).
  lra.
Qed.

Lemma traverse_Forall_r {A B : Type} (f : A -> option B) (T : B -> Prop)
    (xs : list A) :
  (forall x y, f x = Some y -> T y) ->
  forall ys, traverse f xs = Some ys -> Forall T ys.
Proof.
  intros HT ys H. apply traverse_inv in H.
  induction H as [| x y xs' ys' Hxy _ IH]; constructor; eauto.
Qed.

(** X29: the text of every highlight is the text of the transcript words
    inside the highlight's own time range, and no highlight has a negative
    score. *)
Theorem select_highlights_text (self : Selector) (scenes : list Scene)
    (transcription_result : option TranscriptionResult) (max_highlights : Z) :
  exists hs,
    select_highlights self scenes transcription_result max_highlights
      = Some hs /\
    Forall
      (fun h =>
         hl_text h =
           _get_text_for_timerange
             match transcription_result with
             | Some r => words r
             | None => []
             end (hl_start_time h) (hl_end_time h) /\
         0 <= hl_score h)
      hs.
Proof.
  destruct (select_highlights_made self scenes transcription_result
              max_highlights) as (scored & hs & Ht & _ & Hsome & Hmade).
  exists hs. split; [exact Hsome |].
  set (word_list := match transcription_result with
                    | Some r => words r
                    | None => []
                    end) in *.
  apply (Forall2_Forall_r made_of (text_of_range word_list) _
           (select_loop max_highlights [] (sort_by_score scored))).
  - intros g h (Htext & _ & Hscore) Hm. unfold made_of, make_highlight in Hm.
    destruct (hd_error (g_scenes g)); [| discriminate].
    injection Hm as <-. simpl. split; assumption.
  - exact Hmade.
  - apply select_loop_Forall; [constructor |].
    apply sort_by_score_Forall.
    apply (traverse_Forall_r (score_group word_list) _
             (scene_groups self scenes)); [| exact Ht].
    intros group g. apply score_group_text.
Qed.

(** ** The Cohere score is not negative *)

Lemma float_of_digits_nonneg (ds : string) : 0 <= PyStr.float_of_digits ds.
Proof.
  unfold PyStr.float_of_digits. change 0 with (inject_Z 0).
  rewrite <- Zle_Qle.
  assert (H : forall l acc,
            (0 <= acc)%Z ->
            (0 <= fold_left
                    (fun acc c => 10 * acc + Z.of_nat (PyStr.code c - 48))
                    l acc)%Z).
  { induction l as [| c l IH]; intros acc Hacc; cbn [fold_left];
      [exact Hacc |].
    apply IH. lia. }
  apply H. lia.
Qed.

(** X30: whatever the Cohere service does, [_score_text_with_cohere]
    returns a score that is not negative; when the call raises or the
    response has no generation, the score lies between 0 and 1. *)
Theorem score_text_with_cohere_nonneg (outcome : cohere_outcome)
    (text : string) :
  0 <= _score_text_with_cohere outcome text /\
  (outcome = CohereRaises \/ outcome = CohereResponse [] ->
   _score_text_with_cohere outcome text <= 1).
Proof.
  pose proof (proj1 (score_text_with_keywords_bounds_aux text)) as Hk.
  split.
  - destruct outcome as [| [| generation others]]; simpl; try lra.
    destruct (PyStr.re_search_digits (PyStr.strip generation)) as [ds |];
      [| lra].
    apply Qdiv_nonneg; [apply float_of_digits_nonneg | lra].
  - intros [-> | ->]; simpl; lra.
Qed.

Lemma score_text_with_cohere_nonneg_witness :
  0 <= _score_text_with_cohere CohereRaises Inputs.five_words <= 1.
Proof.
  destruct (score_text_with_cohere_nonneg CohereRaises Inputs.five_words)
    as [H0 H1].
  split; [exact H0 | apply H1; left; reflexivity].
Defined.
